(** * SequenceCache: the prefetching frame cache of QtAliceVision

    A shallow embedding of [src/SequenceCache.cpp] (namespace
    [qtAliceVision]) and the properties of its sequence index, window
    planner and prefetch coordinator.

    Conventions of the embedding.
    - A C++ [int] is a [Z] kept in the 32-bit two's-complement range; every
      arithmetic operation on [int] re-enters that range through
      [Int.wrap].  (Signed overflow is undefined in C++; the embedding
      gives it the wrap-around every mainstream compiler produces.)
    - A [size_t] is a [Z]; an [int] compared with a [size_t] is first
      converted with [to_size_t], as the usual arithmetic conversions do.
    - The object [SequenceCache] is a record; each member function takes
      the object and returns the updated object next to its result.
    - The collaborators that live outside the repository (the image cache
      and the metadata reader of AliceVision) are the fields of the class
      [Collaborators]; the development holds for every instance. *)

From Stdlib Require Import ZArith List String Ascii Bool Lia.
From Stdlib Require Import Permutation Sorted OrderedTypeEx.
Import ListNotations.
Local Open Scope Z_scope.

(** ** Machine integers *)

Module Int.

Definition min_int : Z := -2147483648.
Definition max_int : Z := 2147483647.

(** Conversion of a mathematical integer to [int]. *)
Definition wrap (z : Z) : Z := (z + 2147483648) mod 4294967296 - 2147483648.

Definition add (a b : Z) : Z := wrap (a + b).
Definition sub (a b : Z) : Z := wrap (a - b).
Definition mul (a b : Z) : Z := wrap (a * b).

(** [z] is representable as an [int]. *)
Definition fits (z : Z) : Prop := min_int <= z <= max_int.

End Int.

(** Conversion of an [int] to [size_t] (64 bits). *)
Definition to_size_t (z : Z) : Z := z mod 18446744073709551616.

(** ** Data model *)

(** [QSize]; a default-constructed [QSize] is the invalid size (-1, -1). *)
Record QSize : Type := mkQSize { qwidth : Z; qheight : Z }.

Definition QSize_default : QSize := mkQSize (-1) (-1).

(** [QVariantMap] restricted to the string values stored here: a finite
    map from keys to values; [m[k] = v] overwrites an existing key. *)
Definition QVariantMap : Type := list (string * string).

Fixpoint QVariantMap_assign (m : QVariantMap) (k v : string) : QVariantMap :=
  match m with
  | [] => [(k, v)]
  | (k', v') :: rest =>
      if String.eqb k' k then (k, v) :: rest
      else (k', v') :: QVariantMap_assign rest k v
  end.

(** [FrameData]: one entry of the sequence. *)
Record FrameData : Type := mkFrameData {
  path : string;
  dim : QSize;
  metadata : QVariantMap
}.

(** A region is the [std::pair<int, int>] (first, second). *)
Definition Region : Type := (Z * Z)%type.

(** [frame >= r.first && frame <= r.second], the test of [request]. *)
Definition in_region (frame : Z) (r : Region) : bool :=
  (fst r <=? frame) && (frame <=? snd r).

Definition region_subset (r1 r2 : Region) : Prop :=
  forall i, in_region i r1 = true -> in_region i r2 = true.

Definition region_empty (r : Region) : Prop :=
  forall i, in_region i r = false.

(** Number of entries of a vector, as the [size_t] that [size()] returns. *)
Definition vsize {A : Type} (v : list A) : Z := Z.of_nat (List.length v).

(** The iterator-range constructor [std::vector(v.begin() + first,
    v.begin() + last)]: the elements at positions [first], ..., [last - 1].
    The range is half-open: position [last] is not part of it. *)
Definition vector_range {A : Type} (v : list A) (first last : Z) : list A :=
  firstn (Z.to_nat (last - first)) (skipn (Z.to_nat first) v).

(** ** Window planner: [SequenceCache::getRegion]

    [size] is [_sequence.size()], read from the object in the source. *)
Definition getRegion (size : Z) (frame extent : Z) : Region :=
  let start := Int.sub frame extent in
  let end_ := Int.add frame extent in
  if start <? 0 then
    (0, Z.min (Int.sub (Int.wrap size) 1) (Int.mul 2 extent))
  else if to_size_t end_ >=? size then
    (Z.max 0 (Int.sub (Int.sub (Int.wrap size) 1) (Int.mul 2 extent)),
     Int.wrap (to_size_t (size - 1)))
  else
    (start, end_).

(** Every arithmetic sub-expression of [getRegion size frame extent] is
    representable as an [int]: no wrap-around takes place. *)
Definition getRegion_exact (size frame extent : Z) : Prop :=
  Int.fits size /\
  Int.fits (frame - extent) /\ Int.fits (frame + extent) /\
  Int.fits (2 * extent) /\ Int.fits (size - 1 - 2 * extent).

(** What the window planner is expected to return. *)
Definition window_ok (size frame extent : Z) (r : Region) : Prop :=
  snd r - fst r + 1 = Z.min (2 * extent + 1) size /\
  0 <= fst r /\ snd r <= size - 1 /\
  fst r <= frame <= snd r.

(** ** Sorting by path *)

(** The comparator of [setSequence]: [d1.path < d2.path], the
    lexicographic order of [std::string] (bytes compared unsigned). *)
Definition path_lt (d1 d2 : FrameData) : bool :=
  String.ltb (path d1) (path d2).

(** Two entries in ascending order of path. *)
Definition ascending (d1 d2 : FrameData) : Prop := path_lt d1 d2 = true.

(** [std::sort] with that comparator.  The standard leaves the relative
    order of equivalent elements open; entries with pairwise distinct paths
    have one sorted arrangement only, the one insertion computes. *)
Fixpoint sort_insert (d : FrameData) (v : list FrameData) : list FrameData :=
  match v with
  | [] => [d]
  | x :: rest => if path_lt d x then d :: v else x :: sort_insert d rest
  end.

Definition std_sort (v : list FrameData) : list FrameData :=
  fold_right sort_insert [] v.

(** ** Results of the metadata reader *)

(** [aliceVision::image::readImageMetadata(path, width, height)] either
    returns normally, leaving some values in [width] and [height] and
    handing back a list of (name, value) attributes, or leaves by a C++
    exception. *)
Inductive ProbeResult : Type :=
| ProbeReturns (width height : Z) (attribs : list (string * string))
| ProbeThrows.

(** How a call ended. *)
Inductive Completion : Type := Normal | Exception.

(** Qt signals emitted by the two objects. *)
Inductive Signal : Type := requestHandled | resultReady.

(** Copy of the attributes into the [QVariantMap] of a frame. *)
Definition copy_metadata (attribs : list (string * string)) : QVariantMap :=
  fold_left (fun m item => QVariantMap_assign m (fst item) (snd item)) attribs [].

(** Position of the first entry whose path is [p], counted from [idx];
    -1 when there is none: the loop of [SequenceCache::getFrame].  The
    [int] counter [idx] is the position in the vector; it is exact for
    every vector of at most [INT_MAX] entries, the only ones whose frames
    the [int] interface of the class can name. *)
Fixpoint getFrame_from (idx : Z) (v : list FrameData) (p : string) : Z :=
  match v with
  | [] => -1
  | d :: rest =>
      if String.eqb (path d) p then idx else getFrame_from (idx + 1) rest p
  end.

(** The value given last for the attribute [k] in a list of attributes. *)
Definition last_value (attribs : list (string * string)) (k : string)
  : option string :=
  option_map snd (find (fun item => String.eqb (fst item) k) (rev attribs)).

(** The second entry does not come before the first in the order of
    paths: what [std::sort] guarantees for every entry and every later
    one. *)
Definition not_descending (d1 d2 : FrameData) : Prop := path_lt d2 d1 = false.

(** Removal and replacement of the element at position [k] of a list. *)
Definition list_remove {A : Type} (k : nat) (l : list A) : list A :=
  firstn k l ++ skipn (S k) l.

Definition list_replace {A : Type} (k : nat) (x : A) (l : list A) : list A :=
  firstn k l ++ x :: skipn (S k) l.

(** ** Collaborators

    [aliceVision::image::ImageCache] and [readImageMetadata] are not part
    of the repository.  The cache is used through [get<RGBAfColor>(path,
    level)], which hands back the image and may change the cache (it loads
    on a miss and may evict), and through [contains<RGBAfColor>(path,
    level)]. *)
Class Collaborators : Type := {
  Image : Type;
  ImageCache : Type;
  ImageCache_new : ImageCache;
  ImageCache_get : ImageCache -> string -> Z -> ImageCache * option Image;
  ImageCache_contains : ImageCache -> string -> Z -> bool;
  readImageMetadata : string -> ProbeResult
}.

Section Model.

Context {C : Collaborators}.

(** ** The object *)

(** The members of [SequenceCache], as the member functions use them. *)
Record SequenceCache : Type := mkSequenceCache {
  _sequence : list FrameData;
  _cache : ImageCache;
  _extentPrefetch : Z;
  _regionPrefetch : Region;
  _extentSafe : Z;
  _regionSafe : Region;
  _loading : bool;
  _nextRegionPrefetch : Region;
  _nextRegionSafe : Region
}.

Definition with_sequence (s : SequenceCache) (v : list FrameData) : SequenceCache :=
  mkSequenceCache v (_cache s) (_extentPrefetch s) (_regionPrefetch s)
    (_extentSafe s) (_regionSafe s) (_loading s)
    (_nextRegionPrefetch s) (_nextRegionSafe s).

Definition with_cache (s : SequenceCache) (c : ImageCache) : SequenceCache :=
  mkSequenceCache (_sequence s) c (_extentPrefetch s) (_regionPrefetch s)
    (_extentSafe s) (_regionSafe s) (_loading s)
    (_nextRegionPrefetch s) (_nextRegionSafe s).

(** [SequenceCache::Response]; [img] is the shared pointer, [None] when
    it is null; [rdim] and [rmetadata] are its members [dim] and
    [metadata]. *)
Record Response : Type := mkResponse {
  img : option Image;
  rdim : QSize;
  rmetadata : QVariantMap
}.

(** A default-constructed [Response]. *)
Definition Response_empty : Response := mkResponse None QSize_default [].

(** [PrefetchingIORunnable]: the batch [_toLoad]; its [_cache] is the
    pointer of the coordinator, so [run] acts on the coordinator's cache. *)
Record PrefetchingIORunnable : Type := mkRunnable {
  _toLoad : list FrameData
}.

(** [SequenceCache::SequenceCache].  The two pending regions are not
    assigned by the constructor; a [std::pair<int, int>] member is
    value-initialised to (0, 0). *)
Definition SequenceCache_new : SequenceCache :=
  {| _sequence := [];
     _cache := ImageCache_new;
     _extentPrefetch := 30;
     _regionPrefetch := (0, 0);
     _extentSafe := 20;
     _regionSafe := (0, 0);
     _loading := false;
     _nextRegionPrefetch := (0, 0);
     _nextRegionSafe := (0, 0) |}.

(** ** Sequence index *)

(** One turn of the loop of [setSequence]: the [FrameData] built for a
    path from what the reader hands back, with no check of any kind;
    [None] when the reader leaves by an exception. *)
Definition read_frame (p : string) : option FrameData :=
  match readImageMetadata p with
  | ProbeReturns width height attribs =>
      Some (mkFrameData p (mkQSize width height) (copy_metadata attribs))
  | ProbeThrows => None
  end.

(** The loop of [setSequence]: each [FrameData] is pushed at the back of
    [acc]; an exception of the reader leaves the loop with what was
    pushed so far. *)
Fixpoint setSequence_loop (paths : list string) (acc : list FrameData)
  : list FrameData * Completion :=
  match paths with
  | [] => (acc, Normal)
  | p :: rest =>
      match read_frame p with
      | None => (acc, Exception)
      | Some data => setSequence_loop rest (acc ++ [data])
      end
  end.

(** [SequenceCache::setSequence]: clear, fill, sort.  There is no
    [try]/[catch]: an exception of the reader propagates and the sort is
    not reached. *)
Definition setSequence (s : SequenceCache) (paths : list string)
  : SequenceCache * Completion :=
  match setSequence_loop paths [] with
  | (v, Normal) => (with_sequence s (std_sort v), Normal)
  | (v, Exception) => (with_sequence s v, Exception)
  end.

(** [SequenceCache::getFrame]. *)
Definition getFrame (s : SequenceCache) (p : string) : Z :=
  getFrame_from 0 (_sequence s) p.

(** [SequenceCache::getCachedFrames]. *)
Fixpoint getCachedFrames_from (frame : Z) (v : list FrameData) (c : ImageCache)
  : list Z :=
  match v with
  | [] => []
  | d :: rest =>
      if ImageCache_contains c (path d) 1
      then frame :: getCachedFrames_from (frame + 1) rest c
      else getCachedFrames_from (frame + 1) rest c
  end.

Definition getCachedFrames (s : SequenceCache) : list Z :=
  getCachedFrames_from 0 (_sequence s) (_cache s).

(** ** Prefetch coordinator *)

(** The condition of the first [if] of [request]. *)
Definition must_prefetch (s : SequenceCache) (frame : Z) : bool :=
  ((frame <? fst (_regionSafe s)) || (frame >? snd (_regionSafe s)))
  && negb (_loading s).

(** The body of that [if]: the new state and the runnable handed to the
    thread pool. *)
Definition start_prefetch (s : SequenceCache) (frame : Z)
  : SequenceCache * PrefetchingIORunnable :=
  let nextPrefetch := getRegion (vsize (_sequence s)) frame (_extentPrefetch s) in
  let nextSafe := getRegion (vsize (_sequence s)) frame (_extentSafe s) in
  let toLoad := vector_range (_sequence s) (fst nextPrefetch) (snd nextPrefetch) in
  (mkSequenceCache (_sequence s) (_cache s) (_extentPrefetch s) (_regionPrefetch s)
     (_extentSafe s) (_regionSafe s) true nextPrefetch nextSafe,
   mkRunnable toLoad).

(** [SequenceCache::request]: the response, the object afterwards and
    the runnable started on the thread pool, if any. *)
Definition request (s : SequenceCache) (p : string)
  : Response * SequenceCache * option PrefetchingIORunnable :=
  let frame := getFrame s p in
  if frame <? 0 then (Response_empty, s, None)
  else
    let '(s1, job) :=
      if must_prefetch s frame
      then let '(s', r) := start_prefetch s frame in (s', Some r)
      else (s, None) in
    if in_region frame (_regionPrefetch s1) then
      (* [_sequence[frame]]: [frame] comes from [getFrame], so the entry
         exists and the [None] branch is never taken. *)
      match nth_error (_sequence s1) (Z.to_nat frame) with
      | Some data =>
          let '(c, i) := ImageCache_get (_cache s1) (path data) 1 in
          (mkResponse i (dim data) (metadata data), with_cache s1 c, job)
      | None => (Response_empty, s1, job)
      end
    else (Response_empty, s1, job).

(** [SequenceCache::onResultReady]: the slot connected to [resultReady]. *)
Definition onResultReady (s : SequenceCache) : SequenceCache * list Signal :=
  (mkSequenceCache (_sequence s) (_cache s) (_extentPrefetch s)
     (_nextRegionPrefetch s) (_extentSafe s) (_nextRegionSafe s) false
     (_nextRegionPrefetch s) (_nextRegionSafe s),
   [requestHandled]).

(** [PrefetchingIORunnable::run] on the shared cache, for a batch whose
    every [get] returns; a [get] that throws is the event
    [WorkerGetThrows] below. *)
Definition run (r : PrefetchingIORunnable) (c : ImageCache)
  : ImageCache * list Signal :=
  (fold_left (fun c' data => fst (ImageCache_get c' (path data) 1)) (_toLoad r) c,
   [resultReady]).

(** A batch runs to its end and its [resultReady] reaches the slot. *)
Definition complete_load (s : SequenceCache) (r : PrefetchingIORunnable)
  : SequenceCache * list Signal :=
  onResultReady (with_cache s (fst (run r (_cache s)))).

(** A series of [request] calls on the owner thread: the object at the
    end and the runnables started, in order. *)
Fixpoint request_all (s : SequenceCache) (ps : list string)
  : SequenceCache * list PrefetchingIORunnable :=
  match ps with
  | [] => (s, [])
  | p :: rest =>
      let '(_, s1, job) := request s p in
      let '(s2, jobs) := request_all s1 rest in
      (s2, match job with Some r => r :: jobs | None => jobs end)
  end.

(** ** The object, the thread pool and the queued signals

    [request] hands its runnable to [QThreadPool::globalInstance()]; the
    runnable works through [_toLoad] on a worker thread and ends by
    emitting [resultReady], which Qt queues for the owner thread, where
    the slot [onResultReady] runs later.  A runnable of the pool is
    recorded with the part of [_toLoad] it has not loaded yet.

    [run] has no [try]/[catch]: a [get] that leaves by an exception takes
    the runnable out of [run] before [resultReady] is emitted.  The event
    [WorkerGetThrows] is that outcome; it carries the cache as the failed
    call leaves it. *)
Record World : Type := mkWorld {
  obj : SequenceCache;
  pool : list PrefetchingIORunnable;
  queued : nat
}.

Inductive Event : Type :=
| CallSetSequence (paths : list string)
| CallRequest (p : string)
| WorkerTurn (k : nat)
| WorkerGetThrows (k : nat) (c : ImageCache)
| DeliverResultReady.

(** One turn of the loop of [PrefetchingIORunnable::run] for the
    runnable at position [k] of the pool: the next [get], when it
    returns, or, at the end of the batch, the emission of [resultReady]
    and the end of the runnable. *)
Definition worker_turn (w : World) (k : nat) : World :=
  match nth_error (pool w) k with
  | None => w
  | Some r =>
      match _toLoad r with
      | data :: rest =>
          mkWorld
            (with_cache (obj w)
               (fst (ImageCache_get (_cache (obj w)) (path data) 1)))
            (list_replace k (mkRunnable rest) (pool w))
            (queued w)
      | [] => mkWorld (obj w) (list_remove k (pool w)) (S (queued w))
      end
  end.

(** The next [get] of the runnable at position [k] leaves by an
    exception: the runnable is over and no signal is emitted.  A runnable
    at the end of its batch makes no [get]. *)
Definition worker_get_throws (w : World) (k : nat) (c : ImageCache)
  : World :=
  match nth_error (pool w) k with
  | None => w
  | Some r =>
      match _toLoad r with
      | _ :: _ =>
          mkWorld (with_cache (obj w) c) (list_remove k (pool w)) (queued w)
      | [] => w
      end
  end.

Definition step (w : World) (e : Event) : World :=
  match e with
  | CallSetSequence paths =>
      mkWorld (fst (setSequence (obj w) paths)) (pool w) (queued w)
  | CallRequest p =>
      let '(_, s, job) := request (obj w) p in
      mkWorld s
        (match job with Some r => pool w ++ [r] | None => pool w end)
        (queued w)
  | WorkerTurn k => worker_turn w k
  | WorkerGetThrows k c => worker_get_throws w k c
  | DeliverResultReady =>
      match queued w with
      | O => w
      | S n => mkWorld (fst (onResultReady (obj w))) (pool w) n
      end
  end.

Definition World_new : World := mkWorld SequenceCache_new [] 0.

Definition run_events (w : World) (es : list Event) : World :=
  fold_left step es w.

(** An event that does not install a sequence of more than
    [INT_MAX - 30] paths. *)
Definition bounded_event (e : Event) : Prop :=
  match e with
  | CallSetSequence paths => vsize paths <= Int.max_int - 30
  | _ => True
  end.

(** The safe regions lie inside the prefetch regions, the current ones
    and the pending ones. *)
Definition regions_nested (s : SequenceCache) : Prop :=
  region_subset (_regionSafe s) (_regionPrefetch s) /\
  region_subset (_nextRegionSafe s) (_nextRegionPrefetch s).

(** The invariant behind [regions_nested]: it needs the size of the
    sequence and the two extents. *)
Definition nested_state (s : SequenceCache) : Prop :=
  vsize (_sequence s) <= Int.max_int - 30 /\
  _extentPrefetch s = 30 /\ _extentSafe s = 20 /\ regions_nested s.

(** The runnables at work plus the signals on their way are one when
    the object is loading and none when it is idle. *)
Definition in_flight (w : World) : Prop :=
  (List.length (pool w) + queued w)%nat =
  (if _loading (obj w) then 1 else 0)%nat.

(** There is at most one of them, and none when the object is idle. *)
Definition at_most_in_flight (w : World) : Prop :=
  (List.length (pool w) + queued w <=
   if _loading (obj w) then 1 else 0)%nat.

(** An event other than a [get] of a runnable that throws. *)
Definition returning_event (e : Event) : Prop :=
  match e with
  | WorkerGetThrows _ _ => False
  | _ => True
  end.

End Model.

(** ** A concrete set of collaborators

    The most favourable cache there is: it never evicts, every decode
    succeeds, and an entry is resident from the first [get] on.  The
    reader knows one file it reads as an image of size 0 x 0 without
    attributes, one file it cannot read at all, and reads every other
    file as a 1920 x 1080 image. *)
Module Demo.

Definition resident (c : list (string * Z)) (p : string) (level : Z) : bool :=
  existsb (fun k => String.eqb (fst k) p && (snd k =? level)) c.

Definition get (c : list (string * Z)) (p : string) (level : Z)
  : list (string * Z) * option string :=
  (if resident c p level then c else (p, level) :: c, Some p).

Definition probe (p : string) : ProbeResult :=
  if String.eqb p "blank.exr" then ProbeReturns 0 0 []
  else if String.eqb p "broken.exr" then ProbeThrows
  else ProbeReturns 1920 1080 [("format"%string, "exr"%string)].

Definition collaborators : Collaborators :=
  {| Image := string;
     ImageCache := list (string * Z);
     ImageCache_new := [];
     ImageCache_get := get;
     ImageCache_contains := resident;
     readImageMetadata := probe |}.

(** A freshly constructed object. *)
Definition fresh : @SequenceCache collaborators := SequenceCache_new.

(** The object after [setSequence({"b.exr", "c.exr", "a.exr"})]. *)
Definition three : @SequenceCache collaborators :=
  fst (setSequence fresh ["b.exr"; "c.exr"; "a.exr"]%string).

(** The 100-frame sequence "000.exr", ..., "099.exr". *)
Definition digit (n : nat) : ascii := ascii_of_nat (48 + n).

Definition frame_name (n : nat) : string :=
  String (digit (n / 100))
    (String (digit ((n / 10) mod 10)) (String (digit (n mod 10)) ".exr")).

Definition hundred : @SequenceCache collaborators :=
  fst (setSequence fresh (map frame_name (seq 0 100))).

End Demo.

(** * Properties *)

(** ** Machine integers *)

Lemma wrap_fits z : Int.fits z -> Int.wrap z = z.
Proof.
  unfold Int.fits, Int.wrap, Int.min_int, Int.max_int. intros H.
  rewrite Z.mod_small by lia. lia.
Qed.

Lemma to_size_t_nonneg z : 0 <= z <= Int.max_int -> to_size_t z = z.
Proof.
  unfold to_size_t, Int.max_int. intros H. apply Z.mod_small. lia.
Qed.

Lemma to_size_t_neg z : Int.min_int <= z < 0 -> Int.max_int < to_size_t z.
Proof.
  unfold to_size_t, Int.min_int, Int.max_int. intros H.
  replace z with (z + 18446744073709551616 + (-1) * 18446744073709551616) by lia.
  rewrite Z.mod_add by lia. rewrite Z.mod_small by lia. lia.
Qed.

Lemma wrap_size_pred size :
  0 <= size <= Int.max_int -> Int.wrap (to_size_t (size - 1)) = size - 1.
Proof.
  intros H. destruct (Z.eq_dec size 0) as [-> | Hne].
  - reflexivity.
  - rewrite to_size_t_nonneg by lia.
    apply wrap_fits. unfold Int.fits, Int.min_int, Int.max_int in *. lia.
Qed.

(** Removes every conversion to [int] whose argument is in range. *)
Ltac unwrap :=
  unfold Int.add, Int.sub, Int.mul;
  repeat match goal with
    | |- context [Int.wrap ?z] =>
        rewrite (wrap_fits z)
          by (unfold Int.fits, Int.min_int, Int.max_int in *; lia)
    end.

(** ** Window planner *)

Lemma in_region_iff i (r : Region) :
  in_region i r = true <-> fst r <= i <= snd r.
Proof.
  unfold in_region. rewrite andb_true_iff, !Z.leb_le. tauto.
Qed.

(** Without wrap-around, [getRegion] is the three-way case distinction
    on plain integers. *)
Lemma getRegion_exact_eq size frame extent :
  0 <= size -> getRegion_exact size frame extent ->
  getRegion size frame extent =
    if frame - extent <? 0 then (0, Z.min (size - 1) (2 * extent))
    else if (frame + extent <? 0) || (size <=? frame + extent)
         then (Z.max 0 (size - 1 - 2 * extent), size - 1)
         else (frame - extent, frame + extent).
Proof.
  intros Hsize (Hs & Hsub & Hadd & Hmul & Hlow).
  unfold getRegion. rewrite wrap_size_pred by (unfold Int.fits in *; lia).
  unwrap.
  destruct (frame - extent <? 0); [reflexivity|].
  rewrite Z.geb_leb.
  destruct (Z.ltb_spec (frame + extent) 0) as [Hneg | Hpos]; simpl.
  - pose proof (to_size_t_neg (frame + extent)
                  ltac:(unfold Int.fits in *; lia)) as Hbig.
    destruct (Z.leb_spec size (to_size_t (frame + extent))); [reflexivity|].
    unfold Int.fits in *. lia.
  - rewrite to_size_t_nonneg by (unfold Int.fits in *; lia). reflexivity.
Qed.

Lemma getRegion_exact_nonneg size frame extent :
  1 <= size <= Int.max_int -> 0 <= frame <= size - 1 -> 0 <= extent ->
  frame + extent <= Int.max_int -> 2 * extent <= Int.max_int ->
  getRegion_exact size frame extent.
Proof.
  unfold getRegion_exact, Int.fits, Int.min_int, Int.max_int. lia.
Qed.

(** C3, as amended: for every sequence length [1 <= size <= INT_MAX],
    every frame of [0, size - 1] and every extent [>= 0] such that
    [frame + extent] and [2 * extent] do not exceed [INT_MAX],
    [getRegion] returns a closed interval of width exactly
    [min (2 * extent + 1) size], contained in [0, size - 1] and containing
    [frame]. *)
Theorem getRegion_window size frame extent :
  1 <= size <= Int.max_int -> 0 <= frame <= size - 1 -> 0 <= extent ->
  frame + extent <= Int.max_int -> 2 * extent <= Int.max_int ->
  window_ok size frame extent (getRegion size frame extent).
Proof.
  intros Hsize Hframe Hext Hadd Hmul.
  rewrite getRegion_exact_eq
    by (try apply getRegion_exact_nonneg; lia).
  unfold window_ok, Int.max_int in *.
  destruct (Z.ltb_spec (frame - extent) 0); cbn [fst snd orb]; [lia|].
  destruct (Z.ltb_spec (frame + extent) 0); cbn [fst snd orb]; [lia|].
  destruct (Z.leb_spec size (frame + extent)); cbn [fst snd]; lia.
Qed.

Lemma getRegion_window_witness :
  window_ok 100 50 30 (getRegion 100 50 30).
Proof.
  apply (getRegion_window 100 50 30); unfold Int.max_int; lia.
Defined.

(** C3 as stated fails: with one frame and the extent 2^30 the product
    [2 * extent] leaves the range of [int], and the region returned is
    (0, -2^31), which does not even contain frame 0. *)
Lemma getRegion_window_overflow :
  getRegion 1 0 1073741824 = (0, -2147483648) /\
  ~ window_ok 1 0 1073741824 (getRegion 1 0 1073741824).
Proof.
  split; [reflexivity|].
  unfold window_ok. vm_compute. intros (H & _). discriminate H.
Qed.

(** Monotonicity of the planner on plain integers. *)
Lemma getRegion_subset size frame e1 e2 :
  1 <= size -> 0 <= frame <= size - 1 -> e1 <= e2 ->
  getRegion_exact size frame e1 -> getRegion_exact size frame e2 ->
  region_subset (getRegion size frame e1) (getRegion size frame e2).
Proof.
  intros Hsize Hframe Hle H1 H2 i.
  rewrite !getRegion_exact_eq by (assumption || lia).
  rewrite !in_region_iff.
  destruct (Z.ltb_spec (frame - e1) 0), (Z.ltb_spec (frame - e2) 0),
    (Z.ltb_spec (frame + e1) 0), (Z.ltb_spec (frame + e2) 0),
    (Z.leb_spec size (frame + e1)), (Z.leb_spec size (frame + e2));
    cbn [fst snd orb]; lia.
Qed.

Section Coordinator.

Context {C : Collaborators}.

(** The state in which [request] leaves the object when it starts a
    prefetch: the pending regions are the two windows around [frame]. *)
Lemma start_prefetch_regions (s : SequenceCache) frame :
  let s' := fst (start_prefetch s frame) in
  _nextRegionPrefetch s' = getRegion (vsize (_sequence s)) frame (_extentPrefetch s) /\
  _nextRegionSafe s' = getRegion (vsize (_sequence s)) frame (_extentSafe s) /\
  _loading s' = true /\
  _sequence s' = _sequence s /\ _regionPrefetch s' = _regionPrefetch s /\
  _regionSafe s' = _regionSafe s /\
  _extentPrefetch s' = _extentPrefetch s /\ _extentSafe s' = _extentSafe s.
Proof. cbn. repeat split. Qed.

(** What [request] does to the members other than the cache. *)
Lemma request_members (s : SequenceCache) p :
  let frame := getFrame s p in
  let s' := snd (fst (request s p)) in
  let job := snd (request s p) in
  if (0 <=? frame) && must_prefetch s frame
  then with_cache s' (_cache s) = fst (start_prefetch s frame) /\
       job = Some (snd (start_prefetch s frame))
  else with_cache s' (_cache s) = s /\ job = None.
Proof.
  cbv zeta. unfold request.
  destruct (Z.ltb_spec (getFrame s p) 0) as [Hneg | Hpos].
  - replace (0 <=? getFrame s p) with false by (symmetry; apply Z.leb_gt; lia).
    cbn. destruct s; auto.
  - replace (0 <=? getFrame s p) with true by (symmetry; apply Z.leb_le; lia).
    cbn [andb].
    destruct (must_prefetch s (getFrame s p)).
    + destruct (start_prefetch s (getFrame s p)) as [s1 r] eqn:Hsp.
      assert (Hc : _cache s1 = _cache s)
        by (unfold start_prefetch in Hsp; inversion Hsp; reflexivity).
      destruct (in_region _ _); [destruct (nth_error _ _)|];
        try destruct (ImageCache_get _ _ _); cbn;
        rewrite <- Hc; destruct s1; auto.
    + destruct (in_region _ _); [destruct (nth_error _ _)|];
        try destruct (ImageCache_get _ _ _); cbn; destruct s; auto.
Qed.

(** C9, as amended: when no arithmetic of [getRegion] leaves the range
    of [int] for either extent, [getRegion] is monotone in the extent:
    for every frame of [0, size - 1] and extents [eSafe <= ePrefetch] the
    window of [eSafe] is contained in the window of [ePrefetch]; hence the
    pending safe window recorded by a triggering [request] is nested in
    the pending prefetch window recorded by that same call. *)
Theorem safe_window_nested size frame eSafe ePrefetch :
  1 <= size -> 0 <= frame <= size - 1 -> eSafe <= ePrefetch ->
  getRegion_exact size frame eSafe -> getRegion_exact size frame ePrefetch ->
  region_subset (getRegion size frame eSafe) (getRegion size frame ePrefetch) /\
  forall (s : SequenceCache) p,
    vsize (_sequence s) = size -> getFrame s p = frame ->
    _extentSafe s = eSafe -> _extentPrefetch s = ePrefetch ->
    must_prefetch s frame = true ->
    let s' := snd (fst (request s p)) in
    _nextRegionSafe s' = getRegion size frame eSafe /\
    _nextRegionPrefetch s' = getRegion size frame ePrefetch /\
    region_subset (_nextRegionSafe s') (_nextRegionPrefetch s').
Proof.
  intros Hsize Hframe Hle H1 H2.
  pose proof (getRegion_subset size frame eSafe ePrefetch Hsize Hframe Hle H1 H2)
    as Hsub.
  split; [exact Hsub|].
  intros s p Hn Hf Hs Hp Hmust s'.
  pose proof (request_members s p) as Hreq. cbv zeta in Hreq.
  rewrite Hf, Hmust in Hreq.
  replace (0 <=? frame) with true in Hreq by (symmetry; apply Z.leb_le; lia).
  destruct Hreq as [Hreq _].
  destruct (start_prefetch_regions s frame) as (Hnp & Hns & _).
  rewrite <- Hreq in Hnp, Hns. cbn in Hnp, Hns.
  fold s' in Hnp, Hns. rewrite Hn, Hp in Hnp. rewrite Hn, Hs in Hns.
  rewrite Hnp, Hns. auto.
Qed.

(** ** Unknown paths *)

Lemma getFrame_from_unknown v p : forall idx,
  ~ In p (map path v) -> getFrame_from idx v p = -1.
Proof.
  induction v as [|d v IH]; intros idx Hnot; [reflexivity|].
  cbn [getFrame_from map In] in *.
  destruct (String.eqb_spec (path d) p) as [Heq | Hne].
  - exfalso. auto.
  - apply IH. auto.
Qed.

(** C7: for a path that is not in the current sequence, [request]
    returns the empty response, leaves every member of the object as it
    was (flag, regions, pending regions, cache, sequence) and starts no
    runnable. *)
Theorem request_unknown_path (s : SequenceCache) p :
  ~ In p (map path (_sequence s)) ->
  request s p = (Response_empty, s, None).
Proof.
  intros Hnot. unfold request, getFrame.
  rewrite getFrame_from_unknown by assumption. reflexivity.
Qed.

(** ** Single flight *)

Lemma with_cache_twice (s : SequenceCache) c c' :
  with_cache (with_cache s c) c' = with_cache s c'.
Proof. reflexivity. Qed.

Lemma with_cache_members (a b : SequenceCache) c :
  with_cache a c = b ->
  _nextRegionPrefetch a = _nextRegionPrefetch b /\
  _nextRegionSafe a = _nextRegionSafe b /\
  _loading a = _loading b.
Proof. intros <-. repeat split. Qed.

(** While a load is pending, [request] calls start nothing and change
    nothing but the cache. *)
Lemma request_all_loading ps : forall s : SequenceCache,
  _loading s = true ->
  snd (request_all s ps) = [] /\
  with_cache (fst (request_all s ps)) (_cache s) = s.
Proof.
  induction ps as [|p ps IH]; intros s Hload.
  - cbn. destruct s; auto.
  - pose proof (request_members s p) as Hreq. cbv zeta in Hreq.
    unfold must_prefetch in Hreq. rewrite Hload in Hreq.
    cbn [negb] in Hreq. rewrite !andb_false_r in Hreq.
    destruct Hreq as [Hs1 Hjob].
    cbn [request_all].
    destruct (request s p) as [[resp s1] job]. cbn [fst snd] in Hs1, Hjob.
    subst job.
    assert (Hload1 : _loading s1 = true)
      by (rewrite <- Hs1 in Hload; exact Hload).
    destruct (IH s1 Hload1) as [Hjobs Hs2].
    destruct (request_all s1 ps) as [s2 jobs]. cbn [fst snd] in *.
    split; [assumption|].
    rewrite <- (with_cache_twice s2 (_cache s1) (_cache s)), Hs2. exact Hs1.
Qed.

(** C5: starting from the loading state, no series of [request] calls,
    whatever the paths, starts a runnable, and the object is still
    loading afterwards: a second batch cannot be dispatched before
    [onResultReady] has run. *)
Theorem request_single_flight (s : SequenceCache) ps :
  _loading s = true ->
  snd (request_all s ps) = [] /\ _loading (fst (request_all s ps)) = true.
Proof.
  intros Hload. destruct (request_all_loading ps s Hload) as [Hjobs Hs].
  split; [assumption|].
  rewrite <- Hs in Hload. exact Hload.
Qed.

(** From any state, a series of [request] calls starts at most one
    runnable. *)
Lemma request_all_at_most_one ps : forall s : SequenceCache,
  (List.length (snd (request_all s ps)) <= 1)%nat.
Proof.
  induction ps as [|p ps IH]; intros s; [cbn; lia|].
  pose proof (request_members s p) as Hreq. cbv zeta in Hreq.
  cbn [request_all].
  destruct (request s p) as [[resp s1] job]. cbn [fst snd] in Hreq.
  destruct ((0 <=? getFrame s p) && must_prefetch s (getFrame s p)).
  - destruct Hreq as [Hs1 ->].
    assert (Hload1 : _loading s1 = true).
    { change (_loading (with_cache s1 (_cache s)) = true). rewrite Hs1.
      reflexivity. }
    destruct (request_all_loading ps s1 Hload1) as [Hjobs _].
    destruct (request_all s1 ps) as [s2 jobs]. cbn [fst snd] in *.
    subst jobs. cbn. lia.
  - destruct Hreq as [_ ->]. specialize (IH s1).
    destruct (request_all s1 ps) as [s2 jobs]. exact IH.
Qed.

(** ** The batch of a prefetch *)

Lemma vector_range_length {A : Type} (v : list A) first last :
  (List.length (vector_range v first last) <= Z.to_nat (last - first))%nat.
Proof.
  unfold vector_range. rewrite length_firstn. apply Nat.le_min_l.
Qed.

(** The batch handed to the runnable holds at most [second - first]
    entries of the pending prefetch window (first, second), one fewer
    than the [second - first + 1] frames of that window. *)
Lemma start_prefetch_batch_size (s : SequenceCache) frame :
  let w := _nextRegionPrefetch (fst (start_prefetch s frame)) in
  (List.length (_toLoad (snd (start_prefetch s frame)))
   <= Z.to_nat (snd w - fst w))%nat.
Proof. cbn. apply vector_range_length. Qed.

(** ** Completion of a load *)

(** C6: let a [request] for a known frame start a prefetch.  Whatever
    [request] calls follow and whatever the worker does to the cache in
    the meantime, once [onResultReady] has run the prefetch region is
    [getRegion frame _extentPrefetch] and the safe region is
    [getRegion frame _extentSafe], both as computed by the triggering
    call; the object is idle again and [requestHandled] has been
    emitted. *)
Theorem onResultReady_windows (s : SequenceCache) p :
  0 <= getFrame s p -> must_prefetch s (getFrame s p) = true ->
  exists r,
    snd (request s p) = Some r /\
    forall ps c,
      let s2 := with_cache (fst (request_all (snd (fst (request s p))) ps)) c in
      let s3 := fst (onResultReady s2) in
      snd (request_all (snd (fst (request s p))) ps) = [] /\
      _regionPrefetch s3 =
        getRegion (vsize (_sequence s)) (getFrame s p) (_extentPrefetch s) /\
      _regionSafe s3 =
        getRegion (vsize (_sequence s)) (getFrame s p) (_extentSafe s) /\
      _loading s3 = false /\
      snd (onResultReady s2) = [requestHandled].
Proof.
  intros Hframe Hmust.
  pose proof (request_members s p) as Hreq. cbv zeta in Hreq.
  rewrite Hmust in Hreq.
  replace (0 <=? getFrame s p) with true in Hreq by (symmetry; apply Z.leb_le; lia).
  destruct Hreq as [Hs1 Hjob].
  exists (snd (start_prefetch s (getFrame s p))). split; [exact Hjob|].
  intros ps c s2 s3.
  set (s1 := snd (fst (request s p))) in *.
  assert (Hload1 : _loading s1 = true).
  { change (_loading (with_cache s1 (_cache s)) = true). rewrite Hs1.
    reflexivity. }
  destruct (request_all_loading ps s1 Hload1) as [Hjobs Hs2].
  split; [exact Hjobs|].
  destruct (with_cache_members _ _ _ Hs2) as (Hp2 & Hn2 & _).
  destruct (with_cache_members _ _ _ Hs1) as (Hp1 & Hn1 & _).
  assert (Hnp : _nextRegionPrefetch s2 =
                _nextRegionPrefetch (fst (start_prefetch s (getFrame s p))))
    by (rewrite <- Hp1, <- Hp2; reflexivity).
  assert (Hns : _nextRegionSafe s2 =
                _nextRegionSafe (fst (start_prefetch s (getFrame s p))))
    by (rewrite <- Hn1, <- Hn2; reflexivity).
  subst s3. cbn [onResultReady fst snd _regionPrefetch _regionSafe _loading].
  rewrite Hnp, Hns. cbn. auto.
Qed.

(** ** Construction *)

(** Right after construction the object is idle and both the safe
    region and the prefetch region are the pair (0, 0), which [request]
    reads as the closed interval that holds frame 0 and no other frame. *)
Lemma SequenceCache_new_state :
  _loading SequenceCache_new = false /\
  _regionSafe SequenceCache_new = (0, 0) /\
  _regionPrefetch SequenceCache_new = (0, 0) /\
  forall i,
    (in_region i (_regionSafe SequenceCache_new) = true <-> i = 0) /\
    (in_region i (_regionPrefetch SequenceCache_new) = true <-> i = 0).
Proof.
  repeat split; try reflexivity;
    try (rewrite in_region_iff; cbn; lia);
    intros ->; reflexivity.
Qed.

(** ** Replacing the sequence *)

(** C10: [setSequence] writes [_sequence] and nothing else: the safe
    region, the prefetch region, the two pending regions, the loading
    flag, the extents and the cache are what they were before the call,
    whichever way the call ends; so the tests [request] makes on a frame
    of the new sequence are made against the regions of the old one. *)
Theorem setSequence_frame (s : SequenceCache) paths :
  let s' := fst (setSequence s paths) in
  _regionSafe s' = _regionSafe s /\
  _regionPrefetch s' = _regionPrefetch s /\
  _nextRegionSafe s' = _nextRegionSafe s /\
  _nextRegionPrefetch s' = _nextRegionPrefetch s /\
  _loading s' = _loading s /\
  _cache s' = _cache s /\
  _extentSafe s' = _extentSafe s /\
  _extentPrefetch s' = _extentPrefetch s /\
  forall frame,
    must_prefetch s' frame = must_prefetch s frame /\
    in_region frame (_regionPrefetch s') = in_region frame (_regionPrefetch s).
Proof.
  unfold setSequence.
  destruct (setSequence_loop paths []) as [v []]; cbn; repeat split.
Qed.

End Coordinator.

(** ** Order of paths *)

Lemma string_ltb_lt a b : String.ltb a b = true <-> String_as_OT.lt a b.
Proof.
  rewrite <- String_as_OT.cmp_lt. unfold String.ltb, String_as_OT.cmp.
  destruct (String.compare a b); split; congruence.
Qed.

Lemma string_ltb_trans a b c :
  String.ltb a b = true -> String.ltb b c = true -> String.ltb a c = true.
Proof.
  rewrite !string_ltb_lt. apply String_as_OT.lt_trans.
Qed.

Lemma string_ltb_connex a b :
  String.ltb a b = false -> a <> b -> String.ltb b a = true.
Proof.
  unfold String.ltb. rewrite (String.compare_antisym b a).
  destruct (String.compare a b) eqn:E; cbn; try congruence.
  intros _ Hne. apply String.compare_eq_iff in E. contradiction.
Qed.

(** ** Sorting *)

Lemma sort_insert_perm d v : Permutation (sort_insert d v) (d :: v).
Proof.
  induction v as [|x v IH]; cbn; [apply Permutation_refl|].
  destruct (path_lt d x); [apply Permutation_refl|].
  eapply Permutation_trans; [apply perm_skip, IH | apply perm_swap].
Qed.

Lemma std_sort_perm v : Permutation (std_sort v) v.
Proof.
  induction v as [|x v IH]; cbn; [constructor|].
  eapply Permutation_trans; [apply sort_insert_perm|]. now apply perm_skip.
Qed.

Lemma sort_insert_sorted d v :
  StronglySorted ascending v -> ~ In (path d) (map path v) ->
  StronglySorted ascending (sort_insert d v).
Proof.
  induction v as [|x v IH]; intros Hs Hnew; cbn.
  - repeat constructor.
  - apply StronglySorted_inv in Hs. destruct Hs as [Hs Hx].
    cbn in Hnew.
    destruct (path_lt d x) eqn:Hlt.
    + constructor; [constructor; assumption|].
      constructor; [exact Hlt|].
      eapply Forall_impl; [|exact Hx].
      intros y Hy. unfold ascending, path_lt in *.
      eapply string_ltb_trans; eassumption.
    + constructor; [apply IH; tauto|].
      eapply Permutation_Forall;
        [apply Permutation_sym, sort_insert_perm|].
      constructor; [|exact Hx].
      unfold ascending, path_lt in *.
      apply string_ltb_connex; [exact Hlt|]. intros Heq. apply Hnew. auto.
Qed.

Lemma std_sort_sorted v :
  NoDup (map path v) -> StronglySorted ascending (std_sort v).
Proof.
  induction v as [|x v IH]; intros Hnd; cbn; [constructor|].
  cbn in Hnd. apply NoDup_cons_iff in Hnd. destruct Hnd as [Hx Hnd].
  apply sort_insert_sorted; [auto|].
  intros Hin. apply Hx.
  eapply Permutation_in; [|exact Hin].
  apply Permutation_map, std_sort_perm.
Qed.

Lemma ascending_irrefl d : ~ ascending d d.
Proof.
  unfold ascending, path_lt, String.ltb.
  pose proof (String.compare_antisym (path d) (path d)) as H.
  destruct (String.compare (path d) (path d)); cbn in H; congruence.
Qed.

Lemma ascending_trans d1 d2 d3 :
  ascending d1 d2 -> ascending d2 d3 -> ascending d1 d3.
Proof. unfold ascending, path_lt. apply string_ltb_trans. Qed.

(** A sequence has at most one strictly ascending arrangement. *)
Lemma sorted_perm_unique l1 : forall l2,
  StronglySorted ascending l1 -> StronglySorted ascending l2 ->
  Permutation l1 l2 -> l1 = l2.
Proof.
  induction l1 as [|a l1 IH]; intros l2 H1 H2 HP.
  - apply Permutation_nil in HP. now subst.
  - destruct l2 as [|b l2];
      [apply Permutation_sym, Permutation_nil in HP; discriminate|].
    apply StronglySorted_inv in H1. destruct H1 as [H1 Ha].
    apply StronglySorted_inv in H2. destruct H2 as [H2 Hb].
    rewrite Forall_forall in Ha, Hb.
    assert (Heq : a = b).
    { assert (Hin_a : In a (b :: l2))
        by (eapply Permutation_in; [exact HP | now left]).
      assert (Hin_b : In b (a :: l1))
        by (eapply Permutation_in; [apply Permutation_sym, HP | now left]).
      destruct Hin_a as [-> | Hin_a]; [reflexivity|].
      destruct Hin_b as [-> | Hin_b]; [reflexivity|].
      exfalso. apply (ascending_irrefl a).
      eapply ascending_trans; [apply Ha | apply Hb]; assumption. }
    subst b. f_equal. apply IH; try assumption.
    eapply Permutation_cons_inv; exact HP.
Qed.

(** Whatever arrangement a correct sort returns for entries with
    pairwise distinct paths, it is the one [std_sort] computes. *)
Lemma std_sort_unique v l :
  NoDup (map path v) -> Permutation l v -> StronglySorted ascending l ->
  l = std_sort v.
Proof.
  intros Hnd HP Hs. apply sorted_perm_unique.
  - exact Hs.
  - now apply std_sort_sorted.
  - eapply Permutation_trans; [exact HP | apply Permutation_sym, std_sort_perm].
Qed.

(** ** Lookup by path *)

Lemma getFrame_from_nth v : forall idx i d,
  NoDup (map path v) -> nth_error v i = Some d ->
  getFrame_from idx v (path d) = idx + Z.of_nat i.
Proof.
  induction v as [|x v IH]; intros idx i d Hnd Hnth.
  - destruct i; discriminate.
  - cbn in Hnd. apply NoDup_cons_iff in Hnd. destruct Hnd as [Hx Hnd].
    cbn [getFrame_from]. destruct i as [|i]; cbn in Hnth.
    + injection Hnth as ->. rewrite String.eqb_refl. lia.
    + destruct (String.eqb_spec (path x) (path d)) as [Heq | Hne].
      * exfalso. apply Hx. rewrite Heq. apply in_map.
        eapply nth_error_In; eassumption.
      * rewrite (IH (idx + 1) i d Hnd Hnth). lia.
Qed.

Section Index.

Context {C : Collaborators}.

(** ** Building the sequence *)

Lemma read_frame_some p d :
  read_frame p = Some d <->
  exists width height attribs,
    readImageMetadata p = ProbeReturns width height attribs /\
    d = mkFrameData p (mkQSize width height) (copy_metadata attribs).
Proof.
  unfold read_frame. destruct (readImageMetadata p) as [w h a|]; split.
  - intros [= <-]. eauto.
  - intros (w' & h' & a' & [= -> -> ->] & ->). reflexivity.
  - discriminate.
  - intros (w' & h' & a' & Hr & _). discriminate.
Qed.

Lemma read_frame_none p :
  read_frame p = None <-> readImageMetadata p = ProbeThrows.
Proof.
  unfold read_frame. destruct (readImageMetadata p); split; congruence.
Qed.

Lemma read_frame_path p d : read_frame p = Some d -> path d = p.
Proof.
  intros H. apply read_frame_some in H.
  destruct H as (w & h & a & _ & ->). reflexivity.
Qed.

(** The accumulator of the loop is a prefix of its result. *)
Lemma setSequence_loop_acc paths : forall acc,
  setSequence_loop paths acc =
    (acc ++ fst (setSequence_loop paths []), snd (setSequence_loop paths [])).
Proof.
  induction paths as [|p paths IH]; intros acc; cbn.
  - now rewrite app_nil_r.
  - destruct (read_frame p) as [d|]; cbn.
    + rewrite (IH (acc ++ [d])), (IH [d]). cbn. now rewrite <- app_assoc.
    + now rewrite app_nil_r.
Qed.

(** Every entry the loop pushes is the frame read for its own path. *)
Lemma setSequence_loop_members paths d :
  In d (fst (setSequence_loop paths [])) ->
  In (path d) paths /\ read_frame (path d) = Some d.
Proof.
  induction paths as [|p paths IH]; cbn; [tauto|].
  destruct (read_frame p) as [d0|] eqn:Hp; cbn; [|tauto].
  rewrite setSequence_loop_acc. cbn. intros [<- | Hin].
  - rewrite (read_frame_path _ _ Hp). auto.
  - destruct (IH Hin). auto.
Qed.

(** When the reader returns for every path, the loop ends normally with
    one entry per path, in the order of the paths. *)
Lemma setSequence_loop_normal paths :
  (forall p, In p paths -> readImageMetadata p <> ProbeThrows) ->
  snd (setSequence_loop paths []) = Normal /\
  map Some (fst (setSequence_loop paths [])) = map read_frame paths.
Proof.
  induction paths as [|p paths IH]; intros Hall; cbn; [auto|].
  destruct (read_frame p) as [d|] eqn:Hp.
  - rewrite setSequence_loop_acc. cbn.
    destruct IH as [Hn Hm]; [intros q Hq; apply Hall; now right|].
    rewrite Hn, Hm. auto.
  - apply read_frame_none in Hp. exfalso. apply (Hall p); auto. now left.
Qed.


Lemma read_frames_paths ds : forall paths,
  map Some ds = map read_frame paths -> map path ds = paths.
Proof.
  induction ds as [|d ds IH]; intros [|p paths] H; try discriminate;
    [reflexivity|].
  cbn in H. injection H as Hd Hds. cbn.
  rewrite (IH _ Hds), (read_frame_path p d); auto.
Qed.

(** C4: for a list of pairwise distinct paths that the reader can all
    read, [setSequence] ends normally and leaves a sequence with one
    entry per path, in strictly ascending order of path; its entries
    occupy the positions 0 .. N-1 and [getFrame] of the path stored at
    position [i] is [i]. *)
Theorem setSequence_index (s : SequenceCache) paths :
  NoDup paths ->
  (forall p, In p paths -> readImageMetadata p <> ProbeThrows) ->
  let s' := fst (setSequence s paths) in
  snd (setSequence s paths) = Normal /\
  List.length (_sequence s') = List.length paths /\
  Permutation (map path (_sequence s')) paths /\
  StronglySorted ascending (_sequence s') /\
  forall i, (i < List.length paths)%nat ->
    exists d, nth_error (_sequence s') i = Some d /\
              getFrame s' (path d) = Z.of_nat i.
Proof.
  intros Hnd Hall.
  destruct (setSequence_loop_normal paths Hall) as [Hn Hm].
  unfold setSequence.
  destruct (setSequence_loop paths []) as [v c]. cbn [fst snd] in Hn, Hm.
  subst c. cbn [fst snd _sequence with_sequence].
  apply read_frames_paths in Hm.
  assert (Hperm : Permutation (map path (std_sort v)) paths)
    by (rewrite <- Hm; apply Permutation_map, std_sort_perm).
  assert (Hlen : List.length (std_sort v) = List.length paths)
    by (rewrite <- (length_map path); apply Permutation_length, Hperm).
  assert (Hnd' : NoDup (map path (std_sort v)))
    by (eapply Permutation_NoDup; [apply Permutation_sym, Hperm | exact Hnd]).
  repeat split; try assumption.
  - apply std_sort_sorted. now rewrite Hm.
  - intros i Hi.
    destruct (nth_error (std_sort v) i) as [d|] eqn:Hnth.
    + exists d. split; [reflexivity|].
      unfold getFrame, with_sequence. cbn [_sequence].
      rewrite (getFrame_from_nth _ 0 i d Hnd' Hnth). lia.
    + apply nth_error_None in Hnth. lia.
Qed.

End Index.

(** * Further properties of the member functions *)

(** ** Lookup *)

Lemma getFrame_from_spec v p : forall idx,
  let r := getFrame_from idx v p in
  (r = -1 /\ ~ In p (map path v)) \/
  (idx <= r < idx + vsize v /\
   exists d, nth_error v (Z.to_nat (r - idx)) = Some d /\ path d = p /\
     forall j d', (j < Z.to_nat (r - idx))%nat ->
       nth_error v j = Some d' -> path d' <> p).
Proof.
  induction v as [|x v IH]; intros idx; cbv zeta.
  - left. cbn. auto.
  - cbn [getFrame_from]. destruct (String.eqb_spec (path x) p) as [Heq | Hne].
    + right. split; [unfold vsize; cbn [List.length]; lia|].
      exists x. replace (idx - idx) with 0 by lia. cbn.
      repeat split; auto. intros j d' Hj. lia.
    + destruct (IH (idx + 1)) as [[Hr Hnot] | (Hr & d & Hnth & Hd & Hfirst)].
      * left. split; [exact Hr|]. cbn. tauto.
      * right. unfold vsize in *. cbn [List.length].
        split; [lia|]. exists d.
        replace (Z.to_nat (getFrame_from (idx + 1) v p - idx))
          with (S (Z.to_nat (getFrame_from (idx + 1) v p - (idx + 1)))) by lia.
        cbn [nth_error]. repeat split; auto.
        intros [|j] d' Hj Hnth'; cbn in Hnth'.
        -- injection Hnth' as <-. exact Hne.
        -- apply (Hfirst j d'); [lia | exact Hnth'].
Qed.

Section Lookup.

Context {C : Collaborators}.

(** X1: a result of [getFrame] that is not negative is a position of
    the sequence, the entry there has the path asked for, and no earlier
    entry has it. *)
Theorem getFrame_found (s : SequenceCache) p :
  0 <= getFrame s p ->
  getFrame s p < vsize (_sequence s) /\
  exists d,
    nth_error (_sequence s) (Z.to_nat (getFrame s p)) = Some d /\
    path d = p /\
    forall j d', (j < Z.to_nat (getFrame s p))%nat ->
      nth_error (_sequence s) j = Some d' -> path d' <> p.
Proof.
  intros Hpos. unfold getFrame in *.
  destruct (getFrame_from_spec (_sequence s) p 0)
    as [[Hr _] | (Hr & d & Hnth & Hd & Hfirst)]; [lia|].
  rewrite Z.sub_0_r in *. split; [lia|]. exists d. auto.
Qed.

(** X2: [getFrame] is never below -1, and it is -1 exactly for the
    paths that no entry of the sequence has. *)
Theorem getFrame_known_iff (s : SequenceCache) p :
  -1 <= getFrame s p /\
  (getFrame s p = -1 <-> ~ In p (map path (_sequence s))) /\
  (0 <= getFrame s p <-> In p (map path (_sequence s))).
Proof.
  unfold getFrame.
  destruct (getFrame_from_spec (_sequence s) p 0)
    as [[Hr Hnot] | (Hr & d & Hnth & Hd & _)].
  - rewrite Hr. repeat split; try lia; tauto.
  - assert (Hin : In p (map path (_sequence s))).
    { rewrite <- Hd. apply in_map. eapply nth_error_In; exact Hnth. }
    repeat split; try lia; try tauto.
Qed.

Lemma getCachedFrames_from_In v c : forall frame i,
  In i (getCachedFrames_from frame v c) <->
  exists d, frame <= i /\ nth_error v (Z.to_nat (i - frame)) = Some d /\
            ImageCache_contains c (path d) 1 = true.
Proof.
  induction v as [|x v IH]; intros frame i; cbn [getCachedFrames_from].
  - split; [intros []|]. intros (d & _ & Hnth & _).
    destruct (Z.to_nat (i - frame)); discriminate.
  - assert (Htail : In i (getCachedFrames_from (frame + 1) v c) <->
              exists d, frame < i /\
                nth_error (x :: v) (Z.to_nat (i - frame)) = Some d /\
                ImageCache_contains c (path d) 1 = true).
    { rewrite IH. split; intros (d & Hle & Hnth & Hc); exists d.
      - split; [lia|]. split; [|exact Hc].
        replace (Z.to_nat (i - frame)) with (S (Z.to_nat (i - (frame + 1))))
          by lia. exact Hnth.
      - split; [lia|]. split; [|exact Hc].
        replace (Z.to_nat (i - frame)) with (S (Z.to_nat (i - (frame + 1))))
          in Hnth by lia. exact Hnth. }
    destruct (ImageCache_contains c (path x) 1) eqn:Hx.
    + cbn [In]. rewrite Htail. split.
      * intros [<- | (d & Hlt & Hnth & Hc)].
        -- exists x. rewrite Z.sub_diag. cbn. split; [lia|]. auto.
        -- exists d. split; [lia|]. auto.
      * intros (d & Hle & Hnth & Hc).
        destruct (Z.eq_dec frame i) as [Heq | Hne]; [now left|].
        right. exists d. split; [lia|]. auto.
    + rewrite Htail. split.
      * intros (d & Hlt & Hnth & Hc). exists d. split; [lia|]. auto.
      * intros (d & Hle & Hnth & Hc). exists d.
        destruct (Z.eq_dec frame i) as [<- | Hne]; [|split; [lia | auto]].
        rewrite Z.sub_diag in Hnth. cbn in Hnth. injection Hnth as <-.
        congruence.
Qed.

Lemma getCachedFrames_from_sorted v c : forall frame,
  StronglySorted Z.lt (getCachedFrames_from frame v c).
Proof.
  induction v as [|x v IH]; intros frame; cbn [getCachedFrames_from];
    [constructor|].
  destruct (ImageCache_contains c (path x) 1); [|apply IH].
  constructor; [apply IH|].
  apply Forall_forall. intros i Hi.
  apply getCachedFrames_from_In in Hi. destruct Hi as (d & Hle & _). lia.
Qed.

(** X3: [getCachedFrames] lists, in increasing order and without
    repetition, exactly the positions of the sequence whose path the
    cache contains at level 1. *)
Theorem getCachedFrames_spec (s : SequenceCache) :
  StronglySorted Z.lt (getCachedFrames s) /\
  forall i,
    In i (getCachedFrames s) <->
    exists d, 0 <= i /\ nth_error (_sequence s) (Z.to_nat i) = Some d /\
              ImageCache_contains (_cache s) (path d) 1 = true.
Proof.
  unfold getCachedFrames. split; [apply getCachedFrames_from_sorted|].
  intros i. rewrite getCachedFrames_from_In. rewrite Z.sub_0_r. reflexivity.
Qed.

End Lookup.

(** ** Windows and batches *)

(** Under the bounds of [getRegion_exact_nonneg] the window holds the
    frame and lies inside the sequence. *)
Lemma getRegion_bounds size frame extent :
  1 <= size <= Int.max_int -> 0 <= frame <= size - 1 -> 0 <= extent ->
  frame + extent <= Int.max_int -> 2 * extent <= Int.max_int ->
  let r := getRegion size frame extent in
  0 <= fst r /\ fst r <= frame <= snd r /\ snd r <= size - 1 /\
  snd r - fst r = Z.min (2 * extent + 1) size - 1.
Proof.
  intros Hsize Hframe Hext Hadd Hmul. cbv zeta.
  rewrite getRegion_exact_eq
    by (try apply getRegion_exact_nonneg; lia).
  unfold Int.max_int in *.
  destruct (Z.ltb_spec (frame - extent) 0); cbn [fst snd orb]; [lia|].
  destruct (Z.ltb_spec (frame + extent) 0); cbn [fst snd orb]; [lia|].
  destruct (Z.leb_spec size (frame + extent)); cbn [fst snd]; lia.
Qed.

(** X9: at the two ends of the sequence the window is pushed inwards,
    not cut: for frame 0 it is (0, min (N - 1) (2 * extent)) and for the
    last frame it is (max 0 (N - 1 - 2 * extent), N - 1), as long as the
    arithmetic stays in the range of [int]. *)
Theorem getRegion_boundaries size extent :
  1 <= size <= Int.max_int -> 0 <= extent ->
  size - 1 + extent <= Int.max_int -> 2 * extent <= Int.max_int ->
  getRegion size 0 extent = (0, Z.min (size - 1) (2 * extent)) /\
  getRegion size (size - 1) extent = (Z.max 0 (size - 1 - 2 * extent), size - 1).
Proof.
  intros Hsize Hext Hadd Hmul.
  rewrite !getRegion_exact_eq
    by (try apply getRegion_exact_nonneg; unfold Int.max_int in *; lia).
  unfold Int.max_int in *. split.
  - destruct (Z.ltb_spec (0 - extent) 0); cbn [orb]; [reflexivity|].
    destruct (Z.ltb_spec (0 + extent) 0); cbn [orb]; [lia|].
    destruct (Z.leb_spec size (0 + extent)); f_equal; lia.
  - destruct (Z.ltb_spec (size - 1 - extent) 0); cbn [orb]; [f_equal; lia|].
    destruct (Z.ltb_spec (size - 1 + extent) 0); cbn [orb]; [lia|].
    destruct (Z.leb_spec size (size - 1 + extent)); f_equal; lia.
Qed.

(** X10: on an empty sequence [_sequence.size() - 1] wraps around as a
    [size_t] and comes back as the [int] -1: for every frame and extent
    that are not negative [getRegion] returns (0, -1), a region without
    frames. *)
Theorem getRegion_empty_sequence frame extent :
  0 <= frame -> 0 <= extent ->
  frame + extent <= Int.max_int -> 2 * extent <= Int.max_int ->
  getRegion 0 frame extent = (0, -1) /\ region_empty (getRegion 0 frame extent).
Proof.
  intros Hframe Hext Hadd Hmul.
  assert (Heq : getRegion 0 frame extent = (0, -1)).
  { rewrite getRegion_exact_eq;
      [| lia
       | unfold getRegion_exact, Int.fits, Int.min_int, Int.max_int in *; lia].
    destruct (Z.ltb_spec (frame - extent) 0); cbn [orb]; [f_equal; lia|].
    destruct (Z.ltb_spec (frame + extent) 0); cbn [orb]; [f_equal; lia|].
    destruct (Z.leb_spec 0 (frame + extent)); [f_equal; lia | lia]. }
  split; [exact Heq|]. rewrite Heq. intros i. unfold in_region. cbn [fst snd].
  destruct (Z.leb_spec 0 i), (Z.leb_spec i (-1)); cbn; auto; lia.
Qed.

Lemma vector_range_nth {A : Type} (v : list A) first last :
  0 <= first <= last -> last <= vsize v ->
  List.length (vector_range v first last) = Z.to_nat (last - first) /\
  forall k, (k < Z.to_nat (last - first))%nat ->
    nth_error (vector_range v first last) k = nth_error v (Z.to_nat first + k).
Proof.
  unfold vector_range, vsize. intros Hfl Hlast. split.
  - rewrite length_firstn, length_skipn. lia.
  - intros k Hk. rewrite nth_error_firstn, nth_error_skipn.
    destruct (Nat.ltb_spec k (Z.to_nat (last - first))); [reflexivity | lia].
Qed.

Section Requests.

Context {C : Collaborators}.

Lemma with_cache_fields (a b : SequenceCache) c :
  with_cache a c = b ->
  _sequence a = _sequence b /\
  _extentPrefetch a = _extentPrefetch b /\ _extentSafe a = _extentSafe b /\
  _regionPrefetch a = _regionPrefetch b /\ _regionSafe a = _regionSafe b /\
  _loading a = _loading b /\
  _nextRegionPrefetch a = _nextRegionPrefetch b /\
  _nextRegionSafe a = _nextRegionSafe b.
Proof. intros <-. repeat split. Qed.

(** The members that [request] reads to build its response are those
    of the object it was called on. *)
Lemma request_current (s : SequenceCache) p :
  let s' := snd (fst (request s p)) in
  _sequence s' = _sequence s /\
  _extentPrefetch s' = _extentPrefetch s /\ _extentSafe s' = _extentSafe s /\
  _regionPrefetch s' = _regionPrefetch s /\ _regionSafe s' = _regionSafe s /\
  _loading s' =
    _loading s || ((0 <=? getFrame s p) && must_prefetch s (getFrame s p)).
Proof.
  pose proof (request_members s p) as Hreq. cbv zeta in *.
  destruct ((0 <=? getFrame s p) && must_prefetch s (getFrame s p)) eqn:Hc.
  - destruct Hreq as [Hs' _]. apply with_cache_fields in Hs'.
    destruct Hs' as (-> & -> & -> & -> & -> & -> & _).
    cbn. rewrite orb_true_r. auto 10.
  - destruct Hreq as [Hs' _]. apply with_cache_fields in Hs'.
    destruct Hs' as (-> & -> & -> & -> & -> & -> & _).
    rewrite orb_false_r. auto 10.
Qed.

(** X6: [request] never changes the sequence, the extents, the
    prefetch region or the safe region, and never clears the loading
    flag: it sets the flag exactly when it starts a prefetch. *)
Theorem request_keeps_current (s : SequenceCache) p :
  let s' := snd (fst (request s p)) in
  _sequence s' = _sequence s /\
  _extentPrefetch s' = _extentPrefetch s /\ _extentSafe s' = _extentSafe s /\
  _regionPrefetch s' = _regionPrefetch s /\ _regionSafe s' = _regionSafe s /\
  _loading s' =
    _loading s || ((0 <=? getFrame s p) && must_prefetch s (getFrame s p)).
Proof. exact (request_current s p). Qed.

Lemma getFrame_found_bound (s : SequenceCache) p :
  0 <= getFrame s p -> getFrame s p < vsize (_sequence s).
Proof.
  intros Hpos. unfold getFrame in *.
  destruct (getFrame_from_spec (_sequence s) p 0) as [[Hr _] | (Hr & _)]; lia.
Qed.

(** The entry that [getFrame] designates. *)
Lemma getFrame_entry (s : SequenceCache) p :
  0 <= getFrame s p ->
  exists d, nth_error (_sequence s) (Z.to_nat (getFrame s p)) = Some d /\
            path d = p.
Proof.
  intros Hpos. unfold getFrame in *.
  destruct (getFrame_from_spec (_sequence s) p 0)
    as [[Hr _] | (Hr & d & Hnth & Hd & _)]; [lia|].
  rewrite Z.sub_0_r in Hnth. eauto.
Qed.

(** The response to a known path is decided by the current prefetch
    region alone. *)
Lemma request_known (s : SequenceCache) p :
  0 <= getFrame s p ->
  if in_region (getFrame s p) (_regionPrefetch s)
  then exists d,
         nth_error (_sequence s) (Z.to_nat (getFrame s p)) = Some d /\
         path d = p /\
         fst (fst (request s p)) =
           mkResponse (snd (ImageCache_get (_cache s) p 1)) (dim d) (metadata d) /\
         _cache (snd (fst (request s p))) = fst (ImageCache_get (_cache s) p 1)
  else fst (fst (request s p)) = Response_empty /\
       _cache (snd (fst (request s p))) = _cache s.
Proof.
  intros Hpos. destruct (getFrame_entry s p Hpos) as (d & Hnth & Hd).
  unfold request.
  replace (getFrame s p <? 0) with false by (symmetry; apply Z.ltb_ge; lia).
  destruct (must_prefetch s (getFrame s p)); cbn [start_prefetch];
    cbn [_regionPrefetch _sequence _cache];
    destruct (in_region (getFrame s p) (_regionPrefetch s)); auto;
    rewrite Hnth, Hd;
    destruct (ImageCache_get (_cache s) p 1) as [c i];
    exists d; cbn; auto.
Qed.

(** X5: for a path of the sequence, [request] answers from the current
    prefetch region alone, whatever the loading flag and the pending
    regions are.  Inside the region the response holds the dimensions and
    the metadata of the first entry with that path and the image that one
    [get] of the cache returns for it, and the cache is the one that
    [get] leaves; outside, the response is empty and the cache is not
    touched, even when the call starts a prefetch. *)
Theorem request_response (s : SequenceCache) p :
  0 <= getFrame s p ->
  if in_region (getFrame s p) (_regionPrefetch s)
  then exists d,
         nth_error (_sequence s) (Z.to_nat (getFrame s p)) = Some d /\
         path d = p /\
         fst (fst (request s p)) =
           mkResponse (snd (ImageCache_get (_cache s) p 1)) (dim d) (metadata d) /\
         _cache (snd (fst (request s p))) = fst (ImageCache_get (_cache s) p 1)
  else fst (fst (request s p)) = Response_empty /\
       _cache (snd (fst (request s p))) = _cache s.
Proof. exact (request_known s p). Qed.

(** X7: from any state, a series of [request] calls starts at most one
    runnable as long as [onResultReady] does not run in between. *)
Theorem request_all_single_batch (s : SequenceCache) ps :
  (List.length (snd (request_all s ps)) <= 1)%nat.
Proof. exact (request_all_at_most_one ps s). Qed.

(** X4: the batch of a prefetch is the part of the sequence from the
    first frame of the pending prefetch window up to, but without, its
    last frame: with N frames and the extent e it has
    [min (2 * e + 1) N - 1] entries. *)
Theorem request_batch (s : SequenceCache) p :
  0 <= getFrame s p -> must_prefetch s (getFrame s p) = true ->
  vsize (_sequence s) <= Int.max_int -> 0 <= _extentPrefetch s ->
  getFrame s p + _extentPrefetch s <= Int.max_int ->
  2 * _extentPrefetch s <= Int.max_int ->
  let w := getRegion (vsize (_sequence s)) (getFrame s p) (_extentPrefetch s) in
  exists r,
    snd (request s p) = Some r /\
    _nextRegionPrefetch (snd (fst (request s p))) = w /\
    vsize (_toLoad r) =
      Z.min (2 * _extentPrefetch s + 1) (vsize (_sequence s)) - 1 /\
    forall k, (k < List.length (_toLoad r))%nat ->
      nth_error (_toLoad r) k = nth_error (_sequence s) (Z.to_nat (fst w) + k).
Proof.
  intros Hpos Hmust Hsize Hext Hadd Hmul w.
  pose proof (getFrame_found_bound s p Hpos) as Hlt.
  pose proof (request_members s p) as Hreq. cbv zeta in Hreq.
  rewrite Hmust in Hreq.
  replace (0 <=? getFrame s p) with true in Hreq by (symmetry; apply Z.leb_le; lia).
  destruct Hreq as [Hs' Hjob].
  exists (snd (start_prefetch s (getFrame s p))). split; [exact Hjob|].
  apply with_cache_fields in Hs'. destruct Hs' as (_ & _ & _ & _ & _ & _ & Hnp & _).
  split; [rewrite Hnp; reflexivity|].
  destruct (getRegion_bounds (vsize (_sequence s)) (getFrame s p)
              (_extentPrefetch s)) as (H0 & Hin & Hlast & Hwidth);
    try lia.
  fold w in H0, Hin, Hlast, Hwidth.
  destruct (vector_range_nth (_sequence s) (fst w) (snd w)) as [Hlen Hnth];
    try lia.
  cbn [start_prefetch snd _toLoad]. fold w. split.
  - unfold vsize at 1. rewrite Hlen. lia.
  - intros k Hk. apply Hnth. rewrite <- Hlen. exact Hk.
Qed.

End Requests.

Section Reload.

Context {C : Collaborators}.

(** X8: once the batch started by a request has run and
    [onResultReady] has been delivered, the same request starts no new
    prefetch and is answered with the dimensions and the metadata of its
    frame and with the image one [get] of the cache returns; the object
    stays idle. *)
Theorem request_after_load (s : SequenceCache) p :
  0 <= getFrame s p -> must_prefetch s (getFrame s p) = true ->
  vsize (_sequence s) <= Int.max_int ->
  0 <= _extentSafe s -> 0 <= _extentPrefetch s ->
  getFrame s p + _extentSafe s <= Int.max_int ->
  2 * _extentSafe s <= Int.max_int ->
  getFrame s p + _extentPrefetch s <= Int.max_int ->
  2 * _extentPrefetch s <= Int.max_int ->
  exists r,
    snd (request s p) = Some r /\
    let s2 := fst (complete_load (snd (fst (request s p))) r) in
    _loading s2 = false /\
    snd (request s2 p) = None /\
    _loading (snd (fst (request s2 p))) = false /\
    exists d,
      nth_error (_sequence s) (Z.to_nat (getFrame s p)) = Some d /\
      path d = p /\
      fst (fst (request s2 p)) =
        mkResponse (snd (ImageCache_get (_cache s2) p 1)) (dim d) (metadata d).
Proof.
  intros Hpos Hmust Hsize HeS HeP HaS HmS HaP HmP.
  pose proof (getFrame_found_bound s p Hpos) as Hlt.
  pose proof (request_members s p) as Hreq. cbv zeta in Hreq.
  rewrite Hmust in Hreq.
  replace (0 <=? getFrame s p) with true in Hreq by (symmetry; apply Z.leb_le; lia).
  destruct Hreq as [Hs1 Hjob].
  exists (snd (start_prefetch s (getFrame s p))). split; [exact Hjob|].
  set (s1 := snd (fst (request s p))) in *.
  set (r := snd (start_prefetch s (getFrame s p))).
  intros s2.
  apply with_cache_fields in Hs1.
  destruct Hs1 as (Hseq & HeP1 & HeS1 & _ & _ & _ & Hnp & Hns).
  cbn in Hseq, HeP1, HeS1, Hnp, Hns.
  assert (Hseq2 : _sequence s2 = _sequence s) by exact Hseq.
  assert (Hrp2 : _regionPrefetch s2 =
            getRegion (vsize (_sequence s)) (getFrame s p) (_extentPrefetch s))
    by exact Hnp.
  assert (Hrs2 : _regionSafe s2 =
            getRegion (vsize (_sequence s)) (getFrame s p) (_extentSafe s))
    by exact Hns.
  assert (Hload2 : _loading s2 = false) by reflexivity.
  assert (Hf2 : getFrame s2 p = getFrame s p)
    by (unfold getFrame; rewrite Hseq2; reflexivity).
  destruct (getRegion_bounds (vsize (_sequence s)) (getFrame s p)
              (_extentPrefetch s)) as (_ & HinP & _); try lia.
  destruct (getRegion_bounds (vsize (_sequence s)) (getFrame s p)
              (_extentSafe s)) as (_ & HinS & _); try lia.
  assert (Hmust2 : must_prefetch s2 (getFrame s p) = false).
  { unfold must_prefetch. rewrite Hrs2.
    replace (getFrame s p <? _) with false by (symmetry; apply Z.ltb_ge; lia).
    replace (getFrame s p >? _) with false
      by (symmetry; rewrite Z.gtb_ltb; apply Z.ltb_ge; lia).
    reflexivity. }
  pose proof (request_members s2 p) as Hreq2. cbv zeta in Hreq2.
  rewrite Hf2, Hmust2, andb_false_r in Hreq2. destruct Hreq2 as [Hs3 Hjob2].
  split; [exact Hload2|]. split; [exact Hjob2|].
  split.
  { apply with_cache_fields in Hs3.
    destruct Hs3 as (_ & _ & _ & _ & _ & -> & _). exact Hload2. }
  pose proof (request_known s2 p) as Hk. rewrite Hf2, Hrp2, Hseq2 in Hk.
  replace (in_region _ _) with true in Hk
    by (symmetry; apply in_region_iff; lia).
  destruct (Hk Hpos) as (d & Hnth & Hd & Hresp & _). eauto.
Qed.

End Reload.

(** ** The object with its thread pool *)

Lemma list_replace_length {A : Type} (k : nat) (x : A) l :
  (k < List.length l)%nat -> List.length (list_replace k x l) = List.length l.
Proof.
  intros Hk. unfold list_replace.
  rewrite length_app, length_firstn. cbn [List.length].
  rewrite length_skipn. lia.
Qed.

Lemma list_remove_length {A : Type} (k : nat) (l : list A) :
  (k < List.length l)%nat ->
  S (List.length (list_remove k l)) = List.length l.
Proof.
  intros Hk. unfold list_remove.
  rewrite length_app, length_firstn, length_skipn. lia.
Qed.

Section System.

Context {C : Collaborators}.

Lemma setSequence_members (s : SequenceCache) paths :
  exists v, fst (setSequence s paths) = with_sequence s v.
Proof.
  unfold setSequence. destruct (setSequence_loop paths []) as [v []]; cbn; eauto.
Qed.

Lemma step_in_flight w e :
  returning_event e -> in_flight w -> in_flight (step w e).
Proof.
  unfold in_flight. intros He Hinv.
  destruct e as [paths | p | k | k c |]; cbn [step]; [| | | destruct He |].
  - destruct (setSequence_members (obj w) paths) as [v ->]. exact Hinv.
  - pose proof (request_members (obj w) p) as Hreq. cbv zeta in Hreq.
    destruct (request (obj w) p) as [[resp s'] job]. cbn [fst snd] in Hreq.
    cbn [obj pool queued].
    destruct ((0 <=? getFrame (obj w) p)
              && must_prefetch (obj w) (getFrame (obj w) p)) eqn:Hc.
    + destruct Hreq as [Hs' ->]. apply with_cache_fields in Hs'.
      destruct Hs' as (_ & _ & _ & _ & _ & -> & _). cbn.
      apply andb_true_iff in Hc. destruct Hc as [_ Hc].
      unfold must_prefetch in Hc. apply andb_true_iff in Hc.
      destruct Hc as [_ Hc]. apply negb_true_iff in Hc. rewrite Hc in Hinv.
      rewrite length_app. cbn. lia.
    + destruct Hreq as [Hs' ->]. apply with_cache_fields in Hs'.
      destruct Hs' as (_ & _ & _ & _ & _ & -> & _). exact Hinv.
  - unfold worker_turn. destruct (nth_error (pool w) k) as [r|] eqn:Hk;
      [|exact Hinv].
    assert (Hlt : (k < List.length (pool w))%nat)
      by (apply nth_error_Some; congruence).
    destruct (_toLoad r) as [|data rest]; cbn [obj pool queued].
    + pose proof (list_remove_length k (pool w) Hlt). lia.
    + rewrite list_replace_length by exact Hlt. exact Hinv.
  - destruct (queued w) as [|n] eqn:Hq; [rewrite Hq; exact Hinv|]. cbn.
    destruct (_loading (obj w)); lia.
Qed.

Lemma run_events_in_flight es : forall w,
  Forall returning_event es -> in_flight w -> in_flight (run_events w es).
Proof.
  induction es as [|e es IH]; intros w Hes Hinv; [exact Hinv|].
  apply Forall_cons_iff in Hes. destruct Hes as [He Hes].
  apply IH; [exact Hes|]. apply step_in_flight; assumption.
Qed.

Lemma step_at_most w e : at_most_in_flight w -> at_most_in_flight (step w e).
Proof.
  unfold at_most_in_flight. intros Hinv.
  destruct e as [paths | p | k | k c |]; cbn [step].
  - destruct (setSequence_members (obj w) paths) as [v ->]. exact Hinv.
  - pose proof (request_members (obj w) p) as Hreq. cbv zeta in Hreq.
    destruct (request (obj w) p) as [[resp s'] job]. cbn [fst snd] in Hreq.
    cbn [obj pool queued].
    destruct ((0 <=? getFrame (obj w) p)
              && must_prefetch (obj w) (getFrame (obj w) p)) eqn:Hc.
    + destruct Hreq as [Hs' ->]. apply with_cache_fields in Hs'.
      destruct Hs' as (_ & _ & _ & _ & _ & -> & _). cbn.
      apply andb_true_iff in Hc. destruct Hc as [_ Hc].
      unfold must_prefetch in Hc. apply andb_true_iff in Hc.
      destruct Hc as [_ Hc]. apply negb_true_iff in Hc. rewrite Hc in Hinv.
      rewrite length_app. cbn. lia.
    + destruct Hreq as [Hs' ->]. apply with_cache_fields in Hs'.
      destruct Hs' as (_ & _ & _ & _ & _ & -> & _). exact Hinv.
  - unfold worker_turn. destruct (nth_error (pool w) k) as [r|] eqn:Hk;
      [|exact Hinv].
    assert (Hlt : (k < List.length (pool w))%nat)
      by (apply nth_error_Some; congruence).
    destruct (_toLoad r) as [|data rest]; cbn [obj pool queued].
    + pose proof (list_remove_length k (pool w) Hlt). lia.
    + rewrite list_replace_length by exact Hlt. exact Hinv.
  - unfold worker_get_throws.
    destruct (nth_error (pool w) k) as [r|] eqn:Hk; [|exact Hinv].
    assert (Hlt : (k < List.length (pool w))%nat)
      by (apply nth_error_Some; congruence).
    destruct (_toLoad r) as [|data rest]; [exact Hinv|].
    cbn [obj pool queued]. unfold with_cache. cbn [_loading].
    pose proof (list_remove_length k (pool w) Hlt). lia.
  - destruct (queued w) as [|n] eqn:Hq; [rewrite Hq; exact Hinv|]. cbn.
    destruct (_loading (obj w)); lia.
Qed.

Lemma run_events_at_most es : forall w,
  at_most_in_flight w -> at_most_in_flight (run_events w es).
Proof.
  induction es as [|e es IH]; intros w Hinv; [exact Hinv|].
  apply IH, step_at_most, Hinv.
Qed.

(** X16: whatever calls, worker turns, failed gets and signal
    deliveries follow the construction of the object, the runnables at
    work and the [resultReady] signals not yet delivered are together at
    most one, and none when the object is idle: there is never a second
    runnable.  As long as no [get] of a runnable throws, there is exactly
    one when the object is loading: its completion is still ahead. *)
Theorem single_flight_invariant es :
  let w := run_events World_new es in
  (List.length (pool w) + queued w <=
   if _loading (obj w) then 1 else 0)%nat /\
  (Forall returning_event es ->
   (List.length (pool w) + queued w)%nat =
   (if _loading (obj w) then 1 else 0)%nat).
Proof.
  cbv zeta. split.
  - apply (run_events_at_most es World_new).
    unfold at_most_in_flight. cbn. lia.
  - intros Hes. apply (run_events_in_flight es World_new Hes). reflexivity.
Qed.

Lemma step_extents w e :
  _extentPrefetch (obj (step w e)) = _extentPrefetch (obj w) /\
  _extentSafe (obj (step w e)) = _extentSafe (obj w).
Proof.
  destruct e as [paths | p | k | k c |]; cbn [step].
  - destruct (setSequence_members (obj w) paths) as [v ->]. auto.
  - pose proof (request_current (obj w) p) as Hreq. cbv zeta in Hreq.
    destruct (request (obj w) p) as [[resp s'] job]. cbn [fst snd] in Hreq.
    cbn [obj]. tauto.
  - unfold worker_turn. destruct (nth_error (pool w) k) as [r|]; [|auto].
    destruct (_toLoad r); auto.
  - unfold worker_get_throws.
    destruct (nth_error (pool w) k) as [r|]; [|auto].
    destruct (_toLoad r); auto.
  - destruct (queued w); auto.
Qed.

(** X17: no member function writes the two extents: in every state
    the object can reach they are the 30 and the 20 of the constructor. *)
Theorem extents_invariant es :
  let w := run_events World_new es in
  _extentPrefetch (obj w) = 30 /\ _extentSafe (obj w) = 20.
Proof.
  cbv zeta.
  assert (H : forall w,
             _extentPrefetch (obj w) = 30 /\ _extentSafe (obj w) = 20 ->
             _extentPrefetch (obj (run_events w es)) = 30 /\
             _extentSafe (obj (run_events w es)) = 20).
  { induction es as [|e es IH]; intros w Hw; [exact Hw|].
    apply IH. destruct (step_extents w e) as [-> ->]. exact Hw. }
  apply H. split; reflexivity.
Qed.

Lemma setSequence_loop_length paths :
  (List.length (fst (setSequence_loop paths [])) <= List.length paths)%nat.
Proof.
  induction paths as [|p paths IH]; cbn; [lia|].
  destruct (read_frame p) as [d|]; cbn; [|lia].
  rewrite setSequence_loop_acc. cbn. lia.
Qed.

Lemma setSequence_size (s : SequenceCache) paths :
  exists v, fst (setSequence s paths) = with_sequence s v /\
            vsize v <= vsize paths.
Proof.
  pose proof (setSequence_loop_length paths) as Hlen.
  unfold setSequence, vsize.
  destruct (setSequence_loop paths []) as [v []]; cbn in *.
  - exists (std_sort v). split; [reflexivity|].
    rewrite (Permutation_length (std_sort_perm v)). lia.
  - exists v. split; [reflexivity | lia].
Qed.

Lemma step_nested w e :
  bounded_event e -> nested_state (obj w) -> nested_state (obj (step w e)).
Proof.
  unfold nested_state, regions_nested.
  intros He (Hsize & HeP & HeS & Hcur & Hnext).
  destruct e as [paths | p | k | k c |]; cbn [step bounded_event] in *.
  - destruct (setSequence_size (obj w) paths) as (v & -> & Hv).
    unfold with_sequence.
    cbn [obj _sequence _extentPrefetch _extentSafe _regionSafe
         _regionPrefetch _nextRegionSafe _nextRegionPrefetch].
    repeat split; try assumption. lia.
  - pose proof (request_members (obj w) p) as Hreq. cbv zeta in Hreq.
    destruct (request (obj w) p) as [[resp s'] job]. cbn [fst snd] in Hreq.
    cbn [obj].
    destruct ((0 <=? getFrame (obj w) p)
              && must_prefetch (obj w) (getFrame (obj w) p)) eqn:Hc.
    + destruct Hreq as [Hs' _]. apply with_cache_fields in Hs'.
      destruct Hs' as (-> & -> & -> & -> & -> & _ & -> & ->). cbn.
      repeat split; try assumption.
      apply andb_true_iff in Hc. destruct Hc as [Hpos _].
      apply Z.leb_le in Hpos.
      pose proof (getFrame_found_bound (obj w) p Hpos) as Hlt.
      rewrite HeP, HeS.
      apply getRegion_subset; try lia;
        apply getRegion_exact_nonneg; unfold Int.max_int in *; lia.
    + destruct Hreq as [Hs' _]. apply with_cache_fields in Hs'.
      destruct Hs' as (-> & -> & -> & -> & -> & _ & -> & ->).
      repeat split; assumption.
  - unfold worker_turn. destruct (nth_error (pool w) k) as [r|];
      [|repeat split; assumption].
    destruct (_toLoad r); cbn; repeat split; assumption.
  - unfold worker_get_throws. destruct (nth_error (pool w) k) as [r|];
      [|repeat split; assumption].
    destruct (_toLoad r); cbn; repeat split; assumption.
  - destruct (queued w); cbn; repeat split; assumption.
Qed.

(** X18: as long as no sequence of more than [INT_MAX - 30] paths is
    installed, the safe region lies inside the prefetch region in every
    state the object can reach, and so does the pending safe region
    inside the pending prefetch region. *)
Theorem regions_nested_invariant es :
  Forall bounded_event es ->
  regions_nested (obj (run_events World_new es)).
Proof.
  intros Hes.
  assert (H : forall w, nested_state (obj w) ->
                        nested_state (obj (run_events w es))).
  { induction Hes as [|e es He Hes IH]; intros w Hw; [exact Hw|].
    apply IH, step_nested; assumption. }
  apply H. unfold nested_state, regions_nested, vsize, Int.max_int. cbn.
  repeat split; try lia; intros i Hi; exact Hi.
Qed.

(** ** The runnable and a cache that retains *)

(** X15: with a cache in which a [get] makes its entry resident and
    evicts nothing, [run] leaves every path of its batch resident, keeps
    resident what was, and emits [resultReady] once; with an empty batch
    it emits the signal all the same. *)
Theorem run_loads_batch :
  (forall c p, ImageCache_contains (fst (ImageCache_get c p 1)) p 1 = true) ->
  (forall c p q, ImageCache_contains c q 1 = true ->
                 ImageCache_contains (fst (ImageCache_get c p 1)) q 1 = true) ->
  forall r c,
    (forall d, In d (_toLoad r) ->
               ImageCache_contains (fst (run r c)) (path d) 1 = true) /\
    (forall q, ImageCache_contains c q 1 = true ->
               ImageCache_contains (fst (run r c)) q 1 = true) /\
    snd (run r c) = [resultReady].
Proof.
  intros Hget Hkeep [batch] c. unfold run. cbn [_toLoad fst snd].
  assert (Hk : forall l c0 q, ImageCache_contains c0 q 1 = true ->
             ImageCache_contains
               (fold_left (fun c' data => fst (ImageCache_get c' (path data) 1))
                  l c0) q 1 = true).
  { induction l as [|x l IH]; intros c0 q Hq; cbn; [exact Hq|].
    apply IH, Hkeep, Hq. }
  split; [|split; [apply Hk | reflexivity]].
  revert c. induction batch as [|x batch IH]; intros c d Hd; [destruct Hd|].
  cbn. destruct Hd as [<- | Hd]; [apply Hk, Hget | apply IH, Hd].
Qed.

End System.

(** ** Sequences with repeated paths *)

Lemma string_ltb_asym a b : String.ltb a b = true -> String.ltb b a = false.
Proof.
  unfold String.ltb. rewrite (String.compare_antisym b a).
  destruct (String.compare a b); cbn; congruence.
Qed.

Lemma string_not_ltb_eq a b :
  String.ltb a b = false -> String.ltb b a = false -> a = b.
Proof.
  intros Hab Hba. destruct (string_dec a b) as [Heq | Hne]; [exact Heq|].
  rewrite (string_ltb_connex a b Hab Hne) in Hba. discriminate.
Qed.

Lemma string_le_trans a b c :
  String.ltb b a = false -> String.ltb c b = false -> String.ltb c a = false.
Proof.
  intros Hab Hbc. destruct (String.ltb c a) eqn:Hca; [|reflexivity].
  destruct (string_dec a b) as [<- | Hne]; [congruence|].
  assert (Hlt : String.ltb a b = true)
    by (apply string_ltb_connex; [exact Hab | congruence]).
  rewrite (string_ltb_trans c a b Hca Hlt) in Hbc. discriminate.
Qed.

Lemma sort_insert_not_descending d v :
  StronglySorted not_descending v ->
  StronglySorted not_descending (sort_insert d v).
Proof.
  induction v as [|x v IH]; intros Hs; cbn.
  - repeat constructor.
  - apply StronglySorted_inv in Hs. destruct Hs as [Hs Hx].
    destruct (path_lt d x) eqn:Hlt.
    + constructor; [constructor; assumption|].
      assert (Hdx : not_descending d x)
        by (apply string_ltb_asym; exact Hlt).
      constructor; [exact Hdx|].
      eapply Forall_impl; [|exact Hx].
      intros y Hy. unfold not_descending, path_lt in *.
      eapply string_le_trans; eassumption.
    + constructor; [apply IH; exact Hs|].
      eapply Permutation_Forall;
        [apply Permutation_sym, sort_insert_perm|].
      constructor; [exact Hlt | exact Hx].
Qed.

Lemma std_sort_not_descending v : StronglySorted not_descending (std_sort v).
Proof.
  induction v as [|x v IH]; cbn; [constructor|].
  apply sort_insert_not_descending, IH.
Qed.

(** Entries that are determined by their path have one sorted
    arrangement only. *)
Lemma sorted_perm_unique_weak l1 : forall l2,
  (forall a b, In a l1 -> In b l1 -> path a = path b -> a = b) ->
  StronglySorted not_descending l1 -> StronglySorted not_descending l2 ->
  Permutation l1 l2 -> l1 = l2.
Proof.
  induction l1 as [|a l1 IH]; intros l2 Hdet H1 H2 HP.
  - apply Permutation_nil in HP. now subst.
  - destruct l2 as [|b l2];
      [apply Permutation_sym, Permutation_nil in HP; discriminate|].
    apply StronglySorted_inv in H1. destruct H1 as [H1 Ha].
    apply StronglySorted_inv in H2. destruct H2 as [H2 Hb].
    rewrite Forall_forall in Ha, Hb.
    assert (Hin_a : In a (b :: l2))
      by (eapply Permutation_in; [exact HP | now left]).
    assert (Hin_b : In b (a :: l1))
      by (eapply Permutation_in; [apply Permutation_sym, HP | now left]).
    assert (Heq : a = b).
    { apply Hdet; [now left | exact Hin_b |].
      unfold not_descending, path_lt in *.
      apply string_not_ltb_eq.
      - destruct Hin_a as [<- | Hin_a]; [|apply Hb, Hin_a].
        destruct (String.ltb (path b) (path b)) eqn:E; [|reflexivity].
        rewrite (string_ltb_asym _ _ E) in E. discriminate.
      - destruct Hin_b as [<- | Hin_b]; [|apply Ha, Hin_b].
        destruct (String.ltb (path a) (path a)) eqn:E; [|reflexivity].
        rewrite (string_ltb_asym _ _ E) in E. discriminate. }
    subst b. f_equal. apply IH; try assumption.
    + intros x y Hx Hy. apply Hdet; now right.
    + eapply Permutation_cons_inv; exact HP.
Qed.

Section Rebuild.

Context {C : Collaborators}.

Lemma map_Some_inj {A : Type} (l1 : list A) : forall l2,
  map Some l1 = map Some l2 -> l1 = l2.
Proof.
  induction l1 as [|x l1 IH]; intros [|y l2] H; try discriminate;
    [reflexivity|].
  cbn in H. injection H as -> H. f_equal. apply IH, H.
Qed.

(** X12: when the reader returns for every path, repeated or not,
    [setSequence] ends normally with one entry per given path, nothing
    dropped and nothing merged, and no entry comes before an earlier one
    in the order of paths. *)
Theorem setSequence_sorted_any (s : SequenceCache) paths :
  (forall p, In p paths -> readImageMetadata p <> ProbeThrows) ->
  let s' := fst (setSequence s paths) in
  snd (setSequence s paths) = Normal /\
  Permutation (map path (_sequence s')) paths /\
  List.length (_sequence s') = List.length paths /\
  StronglySorted not_descending (_sequence s').
Proof.
  intros Hall.
  destruct (setSequence_loop_normal paths Hall) as [Hn Hm].
  unfold setSequence.
  destruct (setSequence_loop paths []) as [v c]. cbn [fst snd] in Hn, Hm.
  subst c. unfold with_sequence. cbn [fst snd _sequence].
  apply read_frames_paths in Hm.
  assert (Hperm : Permutation (map path (std_sort v)) paths)
    by (rewrite <- Hm; apply Permutation_map, std_sort_perm).
  repeat split; try assumption.
  - rewrite <- (length_map path). apply Permutation_length, Hperm.
  - apply std_sort_not_descending.
Qed.

(** X11: the sequence that [setSequence] builds does not depend on the
    order in which the paths are given. *)
Theorem setSequence_order_irrelevant (s : SequenceCache) paths paths' :
  Permutation paths paths' ->
  (forall p, In p paths -> readImageMetadata p <> ProbeThrows) ->
  setSequence s paths = setSequence s paths'.
Proof.
  intros HP Hall.
  assert (Hall' : forall p, In p paths' -> readImageMetadata p <> ProbeThrows).
  { intros p Hp. apply Hall. eapply Permutation_in;
      [apply Permutation_sym, HP | exact Hp]. }
  destruct (setSequence_loop_normal paths Hall) as [Hn Hm].
  destruct (setSequence_loop_normal paths' Hall') as [Hn' Hm'].
  pose proof (setSequence_loop_members paths) as Hmem.
  unfold setSequence.
  destruct (setSequence_loop paths []) as [v c].
  destruct (setSequence_loop paths' []) as [v' c'].
  cbn [fst snd] in *. subst c c'. f_equal. f_equal.
  assert (Hvv : Permutation v v').
  { assert (H : Permutation (map Some v) (map Some v'))
      by (rewrite Hm, Hm'; apply Permutation_map, HP).
    apply Permutation_map_inv in H. destruct H as (l & Hl & Hperm).
    apply map_Some_inj in Hl. subst l. apply Permutation_sym, Hperm. }
  apply sorted_perm_unique_weak.
  - intros a b Ha Hb Hab.
    assert (Ha' : In a v)
      by (eapply Permutation_in; [apply std_sort_perm | exact Ha]).
    assert (Hb' : In b v)
      by (eapply Permutation_in; [apply std_sort_perm | exact Hb]).
    destruct (Hmem a Ha') as [_ Hra]. destruct (Hmem b Hb') as [_ Hrb].
    rewrite Hab in Hra. congruence.
  - apply std_sort_not_descending.
  - apply std_sort_not_descending.
  - eapply Permutation_trans; [apply std_sort_perm|].
    eapply Permutation_trans; [exact Hvv | apply Permutation_sym, std_sort_perm].
Qed.

(** X13: when the reader throws for a path and returns for all the
    paths given before it, [setSequence] ends by the exception; the
    previous sequence is gone and the object holds the entries of the
    paths before the failing one, in the order they were given. *)
Theorem setSequence_exception_prefix (s : SequenceCache) before p after :
  (forall q, In q before -> readImageMetadata q <> ProbeThrows) ->
  readImageMetadata p = ProbeThrows ->
  snd (setSequence s (before ++ p :: after)) = Exception /\
  map path (_sequence (fst (setSequence s (before ++ p :: after)))) = before /\
  map Some (_sequence (fst (setSequence s (before ++ p :: after))))
    = map read_frame before.
Proof.
  intros Hall Hp.
  assert (Hloop : exists v,
            setSequence_loop (before ++ p :: after) [] = (v, Exception) /\
            map Some v = map read_frame before).
  { clear s. induction before as [|q before IH]; cbn.
    - apply read_frame_none in Hp. rewrite Hp. exists []. auto.
    - destruct (read_frame q) as [d|] eqn:Hq.
      + destruct IH as (v & Hv & Hm); [intros x Hx; apply Hall; now right|].
        rewrite setSequence_loop_acc, Hv. cbn. exists (d :: v).
        split; [reflexivity|]. cbn. rewrite Hm. reflexivity.
      + apply read_frame_none in Hq. exfalso. apply (Hall q); auto. now left. }
  destruct Hloop as (v & Hv & Hm).
  unfold setSequence. rewrite Hv. unfold with_sequence. cbn [fst snd _sequence].
  split; [reflexivity|]. split; [|exact Hm].
  apply read_frames_paths, Hm.
Qed.

End Rebuild.

(** ** Metadata of a frame *)

Lemma QVariantMap_assign_keys m k0 v0 : forall k,
  In k (map fst (QVariantMap_assign m k0 v0)) <-> k = k0 \/ In k (map fst m).
Proof.
  induction m as [|[k' v'] m IH]; intros k; cbn.
  - intuition.
  - destruct (String.eqb_spec k' k0) as [-> | Hne]; cbn.
    + intuition.
    + rewrite IH. intuition.
Qed.

Lemma QVariantMap_assign_NoDup m k0 v0 :
  NoDup (map fst m) -> NoDup (map fst (QVariantMap_assign m k0 v0)).
Proof.
  induction m as [|[k' v'] m IH]; intros Hnd; cbn.
  - repeat constructor. intros [].
  - cbn in Hnd. apply NoDup_cons_iff in Hnd. destruct Hnd as [Hk Hnd].
    destruct (String.eqb_spec k' k0) as [-> | Hne]; cbn.
    + constructor; assumption.
    + constructor; [|apply IH, Hnd].
      rewrite QVariantMap_assign_keys. intros [-> | Hin]; auto.
Qed.

Lemma QVariantMap_assign_In m k0 v0 :
  NoDup (map fst m) ->
  forall k v, In (k, v) (QVariantMap_assign m k0 v0) <->
              (k = k0 /\ v = v0) \/ (k <> k0 /\ In (k, v) m).
Proof.
  induction m as [|[k' v'] m IH]; intros Hnd k v; cbn [QVariantMap_assign].
  - cbn. split.
    + intros [H | []]. injection H as <- <-. now left.
    + intros [[-> ->] | [_ []]]. now left.
  - cbn [map fst] in Hnd. apply NoDup_cons_iff in Hnd.
    destruct Hnd as [Hk Hnd].
    destruct (String.eqb_spec k' k0) as [Heq | Hne]; cbn [In].
    + subst k'. split.
      * intros [H | Hin].
        -- injection H as <- <-. now left.
        -- right. split; [|now right].
           intros ->. apply Hk. apply (in_map fst) in Hin. exact Hin.
      * intros [[-> ->] | [Hk0 [H | Hin]]].
        -- now left.
        -- injection H as H1 H2. congruence.
        -- now right.
    + rewrite (IH Hnd). split.
      * intros [H | [[-> ->] | [Hk0 Hin]]].
        -- injection H as <- <-. right. split; [exact Hne | now left].
        -- now left.
        -- right. split; [exact Hk0 | now right].
      * intros [[-> ->] | [Hk0 [H | Hin]]].
        -- right. now left.
        -- now left.
        -- right. right. split; assumption.
Qed.

Lemma last_value_snoc attribs k0 v0 k :
  last_value (attribs ++ [(k0, v0)]) k =
    if String.eqb k0 k then Some v0 else last_value attribs k.
Proof.
  unfold last_value. rewrite rev_unit. cbn.
  destruct (String.eqb k0 k); reflexivity.
Qed.

Lemma copy_metadata_fold attribs : forall before m,
  NoDup (map fst m) ->
  (forall k v, In (k, v) m <-> last_value before k = Some v) ->
  let m' := fold_left
              (fun m item => QVariantMap_assign m (fst item) (snd item))
              attribs m in
  NoDup (map fst m') /\
  forall k v, In (k, v) m' <-> last_value (before ++ attribs) k = Some v.
Proof.
  induction attribs as [|[k0 v0] attribs IH]; intros before m Hnd Hm; cbn.
  - rewrite app_nil_r. auto.
  - replace (before ++ (k0, v0) :: attribs)
      with ((before ++ [(k0, v0)]) ++ attribs)
      by (rewrite <- app_assoc; reflexivity).
    apply IH; [apply QVariantMap_assign_NoDup, Hnd|].
    intros k v. rewrite (QVariantMap_assign_In m k0 v0 Hnd), last_value_snoc.
    destruct (String.eqb_spec k0 k) as [-> | Hne].
    + split.
      * intros [[_ ->] | [Hk _]]; [reflexivity | contradiction].
      * intros [= ->]. now left.
    + rewrite <- Hm. split.
      * intros [[-> _] | [_ Hin]]; [contradiction | exact Hin].
      * intros Hin. right. split; [congruence | exact Hin].
Qed.

(** X14: the metadata of a frame holds every attribute name once, with
    the value the reader gave last for that name. *)
Theorem copy_metadata_last_wins attribs :
  NoDup (map fst (copy_metadata attribs)) /\
  forall k v, In (k, v) (copy_metadata attribs) <-> last_value attribs k = Some v.
Proof.
  unfold copy_metadata.
  apply (copy_metadata_fold attribs [] []); [constructor|].
  intros k v. cbn. split; [intros [] | discriminate].
Qed.

(** ** When a prefetch starts *)

Section Trigger.

Context {C : Collaborators}.

Lemma must_prefetch_iff (s : SequenceCache) frame :
  must_prefetch s frame = true <->
  in_region frame (_regionSafe s) = false /\ _loading s = false.
Proof.
  unfold must_prefetch, in_region.
  rewrite andb_true_iff, negb_true_iff, orb_true_iff, andb_false_iff.
  rewrite Z.gtb_ltb, !Z.ltb_lt, !Z.leb_gt. tauto.
Qed.

(** X19: [request] starts a prefetch exactly when the path is in the
    sequence, its frame lies outside the current safe region and no load
    is pending; a frame inside the safe region never starts one. *)
Theorem request_starts_prefetch_iff (s : SequenceCache) p :
  (exists r, snd (request s p) = Some r) <->
  0 <= getFrame s p /\
  in_region (getFrame s p) (_regionSafe s) = false /\ _loading s = false.
Proof.
  pose proof (request_members s p) as Hreq. cbv zeta in Hreq.
  rewrite <- must_prefetch_iff, <- Z.leb_le, <- andb_true_iff.
  destruct ((0 <=? getFrame s p) && must_prefetch s (getFrame s p)).
  - destruct Hreq as [_ ->]. split; eauto.
  - destruct Hreq as [_ ->]. split; [intros [r Hr]|]; discriminate.
Qed.

(** X20: when the safe region lies inside the prefetch region, a
    request for a frame of the sequence that is outside the prefetch
    region, and so gets the empty response, leaves the object loading: a
    load is pending already or this call starts one. *)
Theorem request_miss_is_loading (s : SequenceCache) p :
  region_subset (_regionSafe s) (_regionPrefetch s) ->
  0 <= getFrame s p ->
  in_region (getFrame s p) (_regionPrefetch s) = false ->
  fst (fst (request s p)) = Response_empty /\
  _loading (snd (fst (request s p))) = true.
Proof.
  intros Hsub Hpos Hout.
  pose proof (request_known s p Hpos) as Hk. rewrite Hout in Hk.
  destruct Hk as [Hresp _]. split; [exact Hresp|].
  destruct (request_current s p) as (_ & _ & _ & _ & _ & ->).
  destruct (_loading s) eqn:Hload; [reflexivity|]. cbn [orb].
  replace (0 <=? getFrame s p) with true by (symmetry; apply Z.leb_le; lia).
  cbn [andb]. apply must_prefetch_iff. split; [|exact Hload].
  destruct (in_region (getFrame s p) (_regionSafe s)) eqn:Hin; [|reflexivity].
  apply Hsub in Hin. congruence.
Qed.

End Trigger.

(** ** Failure of the metadata reader *)

Section ProbeFailure.

Context {C : Collaborators}.


End ProbeFailure.

(** * Runs on the concrete collaborators *)

Local Open Scope string_scope.

(** C1 at work on the 100-frame sequence of the specification, with the
    cache that never evicts.  The request for frame 50 records the
    pending prefetch window (20, 80), but the batch handed to the runnable
    holds the frames 20 .. 79 only.  After the batch has run and
    [onResultReady] has made (20, 80) the prefetch region, frame 80 is in
    the region while its path is not in the cache. *)
Theorem prefetch_batch_stops_short :
  let s1 := snd (fst (request Demo.hundred "050.exr")) in
  _nextRegionPrefetch s1 = (20, 80) /\
  exists r,
    snd (request Demo.hundred "050.exr") = Some r /\
    map path (_toLoad r) = map Demo.frame_name (seq 20 60) /\
    existsb (String.eqb "080.exr") (map path (_toLoad r)) = false /\
    let s2 := fst (complete_load s1 r) in
    _regionPrefetch s2 = (20, 80) /\
    getFrame s2 "080.exr" = 80 /\
    in_region 80 (_regionPrefetch s2) = true /\
    ImageCache_contains (_cache s2) "080.exr" 1 = false /\
    getCachedFrames s2 = map Z.of_nat (seq 20 60).
Proof.
  cbv zeta. split; [vm_compute; reflexivity|].
  eexists. split; [vm_compute; reflexivity|].
  repeat split; vm_compute; reflexivity.
Qed.

(** C2 at work on the three-frame sequence.  The constructor leaves the
    object idle, but with both regions equal to (0, 0), and [request]
    reads a region as a closed interval: (0, 0) holds frame 0.  On the
    object with its first sequence nothing has been loaded, yet frame 0
    is inside the safe region and inside the prefetch region: the request
    for it starts no prefetch and takes the branch of the frames that
    "must already be cached", where the image is read through the cache
    on the calling thread. *)
Theorem fresh_regions_hold_frame_0 :
  _loading Demo.fresh = false /\
  _regionSafe Demo.fresh = (0, 0) /\ _regionPrefetch Demo.fresh = (0, 0) /\
  _regionSafe Demo.three = (0, 0) /\ _regionPrefetch Demo.three = (0, 0) /\
  getFrame Demo.three "a.exr" = 0 /\
  in_region 0 (_regionSafe Demo.three) = true /\
  in_region 0 (_regionPrefetch Demo.three) = true /\
  getCachedFrames Demo.three = [] /\
  Demo.resident (_cache Demo.three) "a.exr" 1 = false /\
  snd (request Demo.three "a.exr") = None /\
  _loading (snd (fst (request Demo.three "a.exr"))) = false /\
  img (fst (fst (request Demo.three "a.exr"))) = Some "a.exr" /\
  _cache (snd (fst (request Demo.three "a.exr"))) = [("a.exr", 1)].
Proof. repeat split. Qed.

(** C9 as stated fails: with one frame, the window of extent 0 is
    (0, 0), while for the larger extent 2^30 the product [2 * extent]
    leaves the range of [int] and the window is (0, -2^31), which holds
    no frame. *)
Lemma getRegion_monotone_overflow :
  getRegion 1 0 0 = (0, 0) /\
  getRegion 1 0 1073741824 = (0, -2147483648) /\
  ~ region_subset (getRegion 1 0 0) (getRegion 1 0 1073741824).
Proof.
  split; [vm_compute; reflexivity|]. split; [vm_compute; reflexivity|].
  intros H. assert (H0 : in_region 0 (getRegion 1 0 0) = true)
    by (vm_compute; reflexivity).
  apply H in H0. vm_compute in H0. discriminate H0.
Qed.

Lemma safe_window_nested_witness :
  region_subset (getRegion 100 50 20) (getRegion 100 50 30) /\
  region_subset
    (_nextRegionSafe (snd (fst (request Demo.hundred "050.exr"))))
    (_nextRegionPrefetch (snd (fst (request Demo.hundred "050.exr")))).
Proof.
  destruct (safe_window_nested (C := Demo.collaborators) 100 50 20 30)
    as [Hsub Hreq];
    try (unfold getRegion_exact, Int.fits, Int.min_int, Int.max_int; lia).
  split; [exact Hsub|].
  destruct (Hreq Demo.hundred "050.exr") as (Hs & Hp & Hnested);
    try (vm_compute; reflexivity).
  exact Hnested.
Defined.

Lemma request_unknown_path_witness :
  request Demo.three "z.exr" = (Response_empty, Demo.three, None).
Proof.
  apply (request_unknown_path Demo.three "z.exr").
  vm_compute. intuition discriminate.
Defined.

Lemma request_single_flight_witness :
  snd (request_all (snd (fst (request Demo.three "b.exr")))
         ["c.exr"; "a.exr"; "z.exr"; "c.exr"]) = [] /\
  _loading (fst (request_all (snd (fst (request Demo.three "b.exr")))
                   ["c.exr"; "a.exr"; "z.exr"; "c.exr"])) = true.
Proof.
  apply (request_single_flight (snd (fst (request Demo.three "b.exr")))).
  reflexivity.
Defined.

Lemma onResultReady_windows_witness :
  exists r,
    snd (request Demo.three "b.exr") = Some r /\
    _regionPrefetch
      (fst (onResultReady
         (with_cache
            (fst (request_all (snd (fst (request Demo.three "b.exr")))
                    ["c.exr"]))
            []))) = getRegion 3 1 30.
Proof.
  destruct (onResultReady_windows Demo.three "b.exr")
    as (r & Hr & Hall); [vm_compute; congruence | reflexivity |].
  exists r. split; [exact Hr|].
  destruct (Hall ["c.exr"] []) as (_ & Hp & _). exact Hp.
Defined.

Lemma three_paths_distinct : NoDup ["b.exr"; "c.exr"; "a.exr"].
Proof.
  repeat constructor; cbn; intuition discriminate.
Defined.

Lemma setSequence_index_witness :
  snd (setSequence Demo.fresh ["b.exr"; "c.exr"; "a.exr"]) = Normal /\
  map path (_sequence Demo.three) = ["a.exr"; "b.exr"; "c.exr"] /\
  StronglySorted ascending (_sequence Demo.three).
Proof.
  destruct (setSequence_index Demo.fresh ["b.exr"; "c.exr"; "a.exr"]
              three_paths_distinct)
    as (Hn & _ & _ & Hs & _).
  - intros p [<- | [<- | [<- | []]]]; discriminate.
  - split; [exact Hn|]. split; [reflexivity | exact Hs].
Defined.


(** ** Runs of the further properties *)

Lemma getFrame_found_witness :
  getFrame Demo.three "b.exr" < vsize (_sequence Demo.three) /\
  exists d,
    nth_error (_sequence Demo.three) (Z.to_nat (getFrame Demo.three "b.exr"))
      = Some d /\ path d = "b.exr".
Proof.
  destruct (getFrame_found Demo.three "b.exr") as (Hlt & d & Hnth & Hd & _);
    [vm_compute; congruence|].
  split; [exact Hlt|]. exists d. split; assumption.
Defined.

Lemma request_response_witness :
  exists d,
    path d = "a.exr" /\
    fst (fst (request Demo.three "a.exr")) =
      @mkResponse Demo.collaborators (Some "a.exr") (dim d) (metadata d).
Proof.
  pose proof (request_response Demo.three "a.exr") as H.
  change (in_region (getFrame Demo.three "a.exr") (_regionPrefetch Demo.three))
    with true in H.
  destruct H as (d & _ & Hd & Hresp & _); [vm_compute; congruence|].
  exists d. split; [exact Hd | exact Hresp].
Defined.

Lemma request_batch_witness :
  exists r,
    snd (request Demo.hundred "050.exr") = Some r /\
    vsize (_toLoad r) = 60.
Proof.
  destruct (request_batch Demo.hundred "050.exr") as (r & Hr & _ & Hlen & _);
    try (vm_compute; congruence).
  exists r. split; [exact Hr | exact Hlen].
Defined.

Lemma request_after_load_witness :
  exists r,
    snd (request Demo.hundred "050.exr") = Some r /\
    snd (request
           (fst (complete_load (snd (fst (request Demo.hundred "050.exr"))) r))
           "050.exr") = None.
Proof.
  destruct (request_after_load Demo.hundred "050.exr")
    as (r & Hr & _ & Hjob & _);
    try (vm_compute; congruence).
  exists r. split; [exact Hr | exact Hjob].
Defined.

Lemma getRegion_boundaries_witness :
  getRegion 100 0 30 = (0, 60) /\ getRegion 100 99 30 = (39, 99).
Proof.
  apply (getRegion_boundaries 100 30); unfold Int.max_int; lia.
Defined.

Lemma getRegion_empty_sequence_witness :
  getRegion 0 0 30 = (0, -1) /\ region_empty (getRegion 0 0 30).
Proof.
  apply (getRegion_empty_sequence 0 30); unfold Int.max_int; lia.
Defined.

Lemma setSequence_sorted_any_witness :
  snd (setSequence Demo.fresh ["b.exr"; "a.exr"; "b.exr"]) = Normal /\
  List.length
    (_sequence (fst (setSequence Demo.fresh ["b.exr"; "a.exr"; "b.exr"])))
    = 3%nat.
Proof.
  destruct (setSequence_sorted_any Demo.fresh ["b.exr"; "a.exr"; "b.exr"])
    as (Hn & _ & Hlen & _).
  - intros p [<- | [<- | [<- | []]]]; discriminate.
  - split; [exact Hn | exact Hlen].
Defined.

Lemma setSequence_order_irrelevant_witness :
  setSequence Demo.fresh ["b.exr"; "c.exr"; "a.exr"] =
  setSequence Demo.fresh ["a.exr"; "b.exr"; "c.exr"].
Proof.
  apply (setSequence_order_irrelevant Demo.fresh).
  - eapply perm_trans; [apply perm_skip, perm_swap | apply perm_swap].
  - intros p [<- | [<- | [<- | []]]]; discriminate.
Defined.

Lemma setSequence_exception_prefix_witness :
  snd (setSequence Demo.three ["c.exr"; "broken.exr"; "a.exr"]) = Exception /\
  map path (_sequence (fst (setSequence Demo.three
                              ["c.exr"; "broken.exr"; "a.exr"]))) = ["c.exr"].
Proof.
  destruct (setSequence_exception_prefix Demo.three
              ["c.exr"] "broken.exr" ["a.exr"]) as (He & Hp & _).
  - intros q [<- | []]. discriminate.
  - reflexivity.
  - split; [exact He | exact Hp].
Defined.

Lemma demo_get_resident c p :
  Demo.resident (fst (Demo.get c p 1)) p 1 = true.
Proof.
  unfold Demo.get. destruct (Demo.resident c p 1) eqn:Hr; cbn [fst];
    [exact Hr|].
  cbn. rewrite String.eqb_refl. reflexivity.
Qed.

Lemma demo_get_keeps c p q :
  Demo.resident c q 1 = true -> Demo.resident (fst (Demo.get c p 1)) q 1 = true.
Proof.
  intros Hq. unfold Demo.get. destruct (Demo.resident c p 1); cbn [fst];
    [exact Hq|].
  cbn. cbn in Hq. unfold Demo.resident in Hq. rewrite Hq. apply orb_true_r.
Qed.

Lemma run_loads_batch_witness :
  forallb (fun d => Demo.resident
                      (fst (run (C := Demo.collaborators)
                              (mkRunnable (_sequence Demo.three)) []))
                      (path d) 1)
    (_sequence Demo.three) = true /\
  snd (run (C := Demo.collaborators) (mkRunnable []) []) = [resultReady].
Proof.
  split.
  - apply forallb_forall. intros d Hd.
    destruct (run_loads_batch (C := Demo.collaborators)
                demo_get_resident demo_get_keeps
                (mkRunnable (_sequence Demo.three)) []) as (Hall & _).
    apply Hall. exact Hd.
  - destruct (run_loads_batch (C := Demo.collaborators)
                demo_get_resident demo_get_keeps (mkRunnable []) [])
      as (_ & _ & Hsig).
    exact Hsig.
Defined.

Lemma regions_nested_invariant_witness :
  regions_nested
    (obj (run_events (C := Demo.collaborators) World_new
            [CallSetSequence ["b.exr"; "c.exr"; "a.exr"];
             CallRequest "c.exr"; WorkerTurn 0; CallRequest "a.exr";
             WorkerTurn 0; WorkerTurn 0; DeliverResultReady;
             CallRequest "c.exr"])).
Proof.
  apply (regions_nested_invariant (C := Demo.collaborators)).
  repeat constructor. unfold vsize, Int.max_int. cbn. lia.
Defined.

(** A life of the object on the three-frame sequence: the request for
    the last frame starts a batch of two entries, the worker loads them
    and ends, the signal is delivered, and the object is idle with the
    window (0, 2). *)
Example three_frame_run :
  let w := run_events (C := Demo.collaborators) World_new
             [CallSetSequence ["b.exr"; "c.exr"; "a.exr"];
              CallRequest "c.exr"; WorkerTurn 0; WorkerTurn 0; WorkerTurn 0;
              DeliverResultReady] in
  pool w = [] /\ queued w = 0%nat /\ _loading (obj w) = false /\
  _regionPrefetch (obj w) = (0, 2) /\ getCachedFrames (obj w) = [0; 1].
Proof. vm_compute. repeat split. Qed.

Lemma request_miss_is_loading_witness :
  fst (fst (request Demo.three "c.exr")) = Response_empty /\
  _loading (snd (fst (request Demo.three "c.exr"))) = true.
Proof.
  apply (request_miss_is_loading Demo.three "c.exr").
  - intros i Hi. exact Hi.
  - vm_compute. congruence.
  - reflexivity.
Defined.

Lemma single_flight_invariant_witness :
  let w := run_events (C := Demo.collaborators) World_new
             [CallSetSequence ["b.exr"; "c.exr"; "a.exr"];
              CallRequest "c.exr"; WorkerTurn 0; CallRequest "b.exr"] in
  (List.length (pool w) + queued w)%nat =
  (if _loading (obj w) then 1 else 0)%nat.
Proof.
  apply (single_flight_invariant (C := Demo.collaborators)).
  repeat constructor.
Defined.

(** A [get] of the runnable that throws: the runnable is gone, no
    signal is on its way, and the object is still loading; the requests
    that follow start nothing. *)
Example get_throws_leaves_loading :
  let w := run_events (C := Demo.collaborators) World_new
             [CallSetSequence ["b.exr"; "c.exr"; "a.exr"];
              CallRequest "c.exr"; WorkerTurn 0;
              WorkerGetThrows (C := Demo.collaborators) 0 [];
              CallRequest "c.exr"; DeliverResultReady; CallRequest "b.exr"] in
  pool w = [] /\ queued w = 0%nat /\ _loading (obj w) = true.
Proof. vm_compute. repeat split. Qed.
